(** * The feature-flag commit filter of release-please

    A shallow embedding of the [FeatureFlagPlugin] class and a verification
    of its filtering behaviour.  The repository holds three renderings of the
    class, which share the constructor and differ in two methods:

    - [src/plugins/feature-flags.ts]: [preconfigure] compacts every commit
      array in place; [shouldIncludeCommit] reads [commit.message].
    - the compiled [feature-flags.js]: the same [preconfigure];
      [shouldIncludeCommit] first looks for a commit override in the body of
      the pull request.
    - a second TypeScript rendering: [preconfigure] filters with
      [Array.prototype.filter], appends historical commits and injects the
      result into the strategies; [shouldIncludeCommit] reads
      [commit.message].

    They are modelled below as the modules [Src], [Build] and [Backfill].
    (A further compiled rendering offers [processCommits], a plain
    [commits.filter] with the [shouldIncludeCommit] of [Src], and no
    [preconfigure]; nothing below depends on it.) *)

From Stdlib Require Import NArith Ascii String.
From stdpp Require Import gmap list fin_maps.

Open Scope N_scope.

(** ** JavaScript strings

    A JavaScript string is a sequence of UTF-16 code units. *)

Abbreviation jsstring := (list N).

(** The code units of an ASCII literal. *)
Definition code_units (s : string) : jsstring :=
  (λ a, N_of_ascii a) <$> list_ascii_of_string s.

(** [\w] without the [u] flag: [A-Za-z0-9_]. *)
Definition is_word (c : N) : bool :=
  ((48 <=? c) && (c <=? 57)) || ((65 <=? c) && (c <=? 90))
  || (c =? 95) || ((97 <=? c) && (c <=? 122)).

(** ECMAScript LineTerminator: LF, CR, LS, PS. *)
Definition is_line_terminator (c : N) : bool :=
  (c =? 10) || (c =? 13) || (c =? 8232) || (c =? 8233).

(** ECMAScript WhiteSpace: TAB, VT, FF, ZWNBSP and the space separators. *)
Definition is_white_space (c : N) : bool :=
  (c =? 9) || (c =? 11) || (c =? 12) || (c =? 32) || (c =? 160)
  || (c =? 5760) || ((8192 <=? c) && (c <=? 8202)) || (c =? 8239)
  || (c =? 8287) || (c =? 12288) || (c =? 65279).

(** [\s], and the characters [String.prototype.trim] strips. *)
Definition is_space (c : N) : bool := is_white_space c || is_line_terminator c.

(** Canonicalize of the regular-expression semantics under the [i] flag
    (no [u] flag): a code unit is mapped to its upper case, unless that would
    take a code unit from 128 and above to one below 128.  Every character of
    the patterns below is ASCII, and a comparison with the canonical form of
    an ASCII character is decided by the ASCII part of the mapping, which is
    the part written out here. *)
Definition canonicalize (c : N) : N :=
  if (97 <=? c) && (c <=? 122) then c - 32 else c.

Fixpoint take_while (f : N → bool) (s : jsstring) : jsstring :=
  match s with
  | c :: s' => if f c then c :: take_while f s' else []
  | [] => []
  end.

Fixpoint drop_while (f : N → bool) (s : jsstring) : jsstring :=
  match s with
  | c :: s' => if f c then drop_while f s' else s
  | [] => []
  end.

(** [s.startsWith(p)]: the rest of [s] after [p], if [s] starts with [p]. *)
Fixpoint strip_prefix (p s : jsstring) : option jsstring :=
  match p, s with
  | [], _ => Some s
  | a :: p', c :: s' => if a =? c then strip_prefix p' s' else None
  | _ :: _, [] => None
  end.

Definition startsWith (s p : jsstring) : bool :=
  match strip_prefix p s with Some _ => true | None => false end.

(** [s.trim()]. *)
Definition trim (s : jsstring) : jsstring :=
  rev (drop_while is_space (rev (drop_while is_space s))).

(** The first occurrence of a separator: the text before it and after it. *)
Fixpoint cut (sep s : jsstring) : option (jsstring * jsstring) :=
  match strip_prefix sep s with
  | Some rest => Some ([], rest)
  | None =>
      match s with
      | [] => None
      | c :: s' =>
          match cut sep s' with
          | Some (before, after) => Some (c :: before, after)
          | None => None
          end
      end
  end.

(** [s.split(sep)] for a separator that is not empty.  Every cut removes the
    separator, so the length of [s] bounds the number of pieces after the
    first. *)
Fixpoint split_upto (n : nat) (sep s : jsstring) : list jsstring :=
  match cut sep s with
  | None => [s]
  | Some (before, after) =>
      before :: match n with
                | O => []
                | S n' => split_upto n' sep after
                end
  end.

Definition split (sep s : jsstring) : list jsstring :=
  split_upto (length s) sep s.

(** ** The marker pattern [/Feature-Flag:\s*(\w+)/i] *)

Definition label : jsstring := code_units "Feature-Flag:".

(** The literal part of the pattern at the head of [s], compared under
    [canonicalize]; the result is the text after it. *)
Fixpoint match_literal (pat s : jsstring) : option jsstring :=
  match pat, s with
  | [], _ => Some s
  | p :: pat', c :: s' =>
      if canonicalize p =? canonicalize c then match_literal pat' s' else None
  | _ :: _, [] => None
  end.

(** A match of the whole pattern that starts at the head of [s]; the result
    is capture group 1.  Both quantifiers are greedy.  [\s] and [\w] have no
    character in common, so when the longest run of white space is not
    followed by a word character no shorter run is either, and backtracking
    finds nothing more. *)
Definition match_here (s : jsstring) : option jsstring :=
  match match_literal label s with
  | Some rest =>
      match take_while is_word (drop_while is_space rest) with
      | [] => None
      | name => Some name
      end
  | None => None
  end.

(** [text.match(/Feature-Flag:\s*(\w+)/i)]: the leftmost match, [None] for
    [null]; the result is element 1 of the match array. *)
Fixpoint flagMatch (s : jsstring) : option jsstring :=
  match match_here s with
  | Some name => Some name
  | None =>
      match s with
      | [] => None
      | _ :: s' => flagMatch s'
      end
  end.

(** ** Commits and the plugin *)

Record PullRequest := { body : jsstring }.

Record Commit := {
  sha : jsstring;
  message : jsstring;
  pullRequest : option PullRequest
}.

Record FeatureFlagPlugin := {
  enabledFlags : gset jsstring;
  previouslyEnabledFlags : gset jsstring
}.

(** One turn of the constructor's loop over [Object.entries(process.env)]. *)
Definition load_entry (this : FeatureFlagPlugin) (entry : jsstring * jsstring)
  : FeatureFlagPlugin :=
  let '(key, value) := entry in
  if startsWith key (code_units "FEATURE_") then
    let this1 :=
      if bool_decide (value = code_units "true")
      then {| enabledFlags := {[ key ]} ∪ enabledFlags this;
              previouslyEnabledFlags := previouslyEnabledFlags this |}
      else this in
    if bool_decide (value = code_units "false")
    then {| enabledFlags := enabledFlags this1;
            previouslyEnabledFlags := {[ key ]} ∪ previouslyEnabledFlags this1 |}
    else this1
  else this.

(** The constructor; [env] is [process.env]. *)
Definition constructor (env : gmap jsstring jsstring) : FeatureFlagPlugin :=
  foldl load_entry
        {| enabledFlags := ∅; previouslyEnabledFlags := ∅ |}
        (map_to_list env).

(** [this.enabledFlags.has(flag)]. *)
Definition has (flags : gset jsstring) (flag : jsstring) : bool :=
  bool_decide (flag ∈ flags).

(** The decision taken from the text that is inspected. *)
Definition decide_on (this : FeatureFlagPlugin) (text : jsstring) : bool :=
  match flagMatch text with
  | None => true
  | Some flag => has (enabledFlags this) flag
  end.

(** ** The host's objects

    The arguments of [preconfigure] are objects of the host, passed by
    reference and shared with it.  The heap holds the two kinds of object the
    plugin touches: [Commit[]] arrays, given by their elements and by the
    named properties that an array can carry besides, and plain objects,
    given by their own properties in the order of [Object.entries].
    (JavaScript lists the keys that are array indices first; paths and
    [_commits] are not, and the order is kept as the order of insertion.) *)

Abbreviation ref := positive.

Inductive any :=
  | v_undefined
  | v_null
  | v_boolean (b : bool)
  | v_number (n : Z)
  | v_string (s : jsstring)
  | v_function (r : ref)
  | v_object (r : ref).

#[global] Instance any_eq_dec : EqDecision any.
Proof. solve_decision. Defined.

Inductive heap_object :=
  | h_commits (elems : list Commit) (named : list (jsstring * any))
  | h_record (props : list (jsstring * any)).

Abbreviation heap := (gmap ref heap_object).

(** [Object.entries(o)]. *)
Definition entries (h : heap) (o : ref) : list (jsstring * any) :=
  match h !! o with
  | Some (h_record props) => props
  | _ => []
  end.

(** [o[key]]. *)
Fixpoint get_property (key : jsstring) (props : list (jsstring * any)) : any :=
  match props with
  | [] => v_undefined
  | (k, v) :: props' =>
      if bool_decide (k = key) then v else get_property key props'
  end.

(** [o[key] = value]: an existing property keeps its place, a new one goes
    last. *)
Fixpoint set_property (key : jsstring) (value : any)
    (props : list (jsstring * any)) : list (jsstring * any) :=
  match props with
  | [] => [(key, value)]
  | (k, v) :: props' =>
      if bool_decide (k = key) then (k, value) :: props'
      else (k, v) :: set_property key value props'
  end.

(** A new object. *)
Definition alloc (h : heap) (o : heap_object) : heap * ref :=
  let r := fresh (dom h) in (<[r := o]> h, r).

(** ** Filtering one array *)

(** The loop
    [for (readIndex = 0; readIndex < commits.length; readIndex++)]
    of the in-place [preconfigure]; [n] bounds the turns that are left.  The
    loop stops when [readIndex] leaves the array.  [writeIndex] never passes
    [readIndex], so every assignment is inside the array. *)
Fixpoint compact (keep : Commit → bool) (n readIndex writeIndex : nat)
    (commits : list Commit) : nat * list Commit :=
  match n with
  | O => (writeIndex, commits)
  | S n' =>
      match commits !! readIndex with
      | None => (writeIndex, commits)
      | Some c =>
          if keep c
          then compact keep n' (S readIndex) (S writeIndex)
                       (<[writeIndex := c]> commits)
          else compact keep n' (S readIndex) writeIndex commits
      end
  end.

(** The loop from [readIndex = 0], [writeIndex = 0], followed by
    [commits.length = writeIndex]. *)
Definition filter_in_place (keep : Commit → bool) (commits : list Commit)
  : list Commit :=
  let '(writeIndex, commits') := compact keep (length commits) 0 0 commits in
  take writeIndex commits'.

(** One turn of the loop over [Object.entries(commitsByPath)]: the array of
    one path is filtered where it lies. *)
Definition filter_path (keep : Commit → bool) (h : heap)
    (entry : jsstring * any) : heap :=
  match entry.2 with
  | v_object commits =>
      match h !! commits with
      | Some (h_commits elems named) =>
          <[commits := h_commits (filter_in_place keep elems) named]> h
      | _ => h
      end
  | _ => h
  end.

(** [preconfigure] of [src/plugins/feature-flags.ts] and of the compiled
    file, over the predicate in which they differ.  The result is the heap
    after the call and the value returned. *)
Definition preconfigure_in_place (keep : Commit → bool)
    (strategiesByPath commitsByPath _releasesByPath : ref) (h : heap)
  : heap * ref :=
  (foldl (filter_path keep) h (entries h commitsByPath), strategiesByPath).

(** ** [src/plugins/feature-flags.ts] *)
Module Src.

Definition shouldIncludeCommit (this : FeatureFlagPlugin) (commit : Commit)
  : bool :=
  let flagMatch := flagMatch (message commit) in
  match flagMatch with
  | None => true
  | Some flag =>
      let isEnabled := has (enabledFlags this) flag in
      isEnabled
  end.

Definition preconfigure (this : FeatureFlagPlugin) :=
  preconfigure_in_place (shouldIncludeCommit this).

End Src.

(** ** The compiled [feature-flags.js] *)
Module Build.

Definition BEGIN_COMMIT_OVERRIDE : jsstring :=
  code_units "BEGIN_COMMIT_OVERRIDE".
Definition END_COMMIT_OVERRIDE : jsstring :=
  code_units "END_COMMIT_OVERRIDE".

(** [(body.split(BEGIN)[1] || '').split(END)[0].trim()]. *)
Definition overrideMessage (body : jsstring) : jsstring :=
  trim (default [] (split END_COMMIT_OVERRIDE
                      (default [] (split BEGIN_COMMIT_OVERRIDE body !! 1%nat))
                    !! 0%nat)).

(** A string is truthy when it is not empty. *)
Definition truthy (s : jsstring) : bool :=
  match s with [] => false | _ :: _ => true end.

Definition messageToCheck (commit : Commit) : jsstring :=
  match pullRequest commit with
  | Some pr =>
      if truthy (body pr) then
        if truthy (overrideMessage (body pr))
        then overrideMessage (body pr)
        else message commit
      else message commit
  | None => message commit
  end.

Definition shouldIncludeCommit (this : FeatureFlagPlugin) (commit : Commit)
  : bool :=
  let flagMatch := flagMatch (messageToCheck commit) in
  match flagMatch with
  | None => true
  | Some flag =>
      let isEnabled := has (enabledFlags this) flag in
      isEnabled
  end.

Definition preconfigure (this : FeatureFlagPlugin) :=
  preconfigure_in_place (shouldIncludeCommit this).

End Build.

(** ** The rendering with historical commits *)
Module Backfill.

Definition shouldIncludeCommit (this : FeatureFlagPlugin) (commit : Commit)
  : bool :=
  let flagMatch := flagMatch (message commit) in
  match flagMatch with
  | None => true
  | Some flag =>
      let isEnabled := has (enabledFlags this) flag in
      isEnabled
  end.

(** [ToBoolean(value)], as [||] tests it. *)
Definition to_boolean (value : any) : bool :=
  match value with
  | v_undefined | v_null => false
  | v_boolean b => b
  | v_number n => negb (n =? 0)%Z
  | v_string [] => false
  | v_string (_ :: _) => true
  | v_function _ | v_object _ => true
  end.

(** The key whose assignment on an object made by [{}] runs the setter of
    [Object.prototype] and sets the prototype of the object; no property of
    that name is made. *)
Definition proto_key : jsstring := code_units "__proto__".

(** [o[key] = value] on an object made by [{}], as [Object.entries] shows
    it afterwards. *)
Definition assign (key : jsstring) (value : any)
    (props : list (jsstring * any)) : list (jsstring * any) :=
  if bool_decide (key = proto_key) then props
  else set_property key value props.

(** [strategy._commits = value] on a plain object or an array. *)
Definition with_commits (value : any) (o : heap_object) : heap_object :=
  match o with
  | h_commits elems named =>
      h_commits elems (set_property (code_units "_commits") value named)
  | h_record props =>
      h_record (set_property (code_units "_commits") value props)
  end.

Section History.

(** [Array.from(this.enabledFlags)].  A [Set] yields its members in the
    order in which they were added; [enabledFlags] records which names are
    members, not that order, so the order is given. *)
Variable insertion_order : list jsstring.

(** [findHistoricalCommits] runs [git log] through [execSync]; what it
    returns is taken as given. *)
Variable findHistoricalCommits : list jsstring → list Commit.

(** What a read of a key finds behind the own properties of
    [filteredCommitsByPath]: on [Object.prototype] ([None]) or, once an
    array has been made the prototype, on that array and the prototypes
    behind it ([Some]).  The values are the host's; [v_undefined] is a key
    found nowhere. *)
Variable inherited : option heap_object → jsstring → any.

(** [Array.from(this.enabledFlags).filter(flag =>
    !this.previouslyEnabledFlags.has(flag))]. *)
Definition newlyEnabledFlags (this : FeatureFlagPlugin) : list jsstring :=
  List.filter (λ flag, negb (has (previouslyEnabledFlags this) flag))
              insertion_order.

(** The body of the first loop for the commits of one path:
    [commits.filter], then the historical commits whose [sha] the
    filtered commits do not have. *)
Definition filteredCommits (this : FeatureFlagPlugin)
    (commits : list Commit) : list Commit :=
  let filteredCommits := List.filter (shouldIncludeCommit this) commits in
  match newlyEnabledFlags this with
  | [] => filteredCommits
  | _ :: _ =>
      let historicalCommits :=
        findHistoricalCommits (newlyEnabledFlags this) in
      let existingShas := sha <$> filteredCommits in
      filteredCommits ++
        List.filter (λ commit, negb (bool_decide (sha commit ∈ existingShas)))
                    historicalCommits
  end.

(** One turn of the first loop: the filtered commits are a new array,
    stored under the path in [filteredCommitsByPath].  That object is kept
    as the list of what a read of each assigned key gives back.  For the
    path [__proto__] the assignment makes the array the prototype of the
    object and a read of [__proto__] gives the prototype, so the entry of
    that key is the prototype; the object is never enumerated. *)
Definition collect_path (this : FeatureFlagPlugin)
    (acc : heap * list (jsstring * any)) (entry : jsstring * any)
  : heap * list (jsstring * any) :=
  match entry.2 with
  | v_object commits =>
      match acc.1 !! commits with
      | Some (h_commits elems _) =>
          let '(h', fresh_array) :=
            alloc acc.1 (h_commits (filteredCommits this elems) []) in
          (h', set_property entry.1 (v_object fresh_array) acc.2)
      | _ => acc
      end
  | _ => acc
  end.

(** The prototype of [filteredCommitsByPath] where it is an array. *)
Definition prototype (h : heap) (filteredCommitsByPath : list (jsstring * any))
  : option heap_object :=
  match get_property proto_key filteredCommitsByPath with
  | v_object array => h !! array
  | _ => None
  end.

(** [filteredCommitsByPath[path]]: the value assigned under the key, or
    what the prototypes give. *)
Definition read (h : heap) (filteredCommitsByPath : list (jsstring * any))
    (path : jsstring) : any :=
  if bool_decide (path ∈ filteredCommitsByPath.*1)
  then get_property path filteredCommitsByPath
  else inherited (prototype h filteredCommitsByPath) path.

(** One turn of the second loop:
    [updatedStrategies[path] = strategy], and for a strategy that is an
    object, plain or an array,
    [strategy._commits = filteredCommitsByPath[path] || []].  A function
    is no object to [typeof]; a reference to an object that the heap does
    not hold has nothing to change there. *)
Definition inject (filteredCommitsByPath : list (jsstring * any))
    (acc : heap * list (jsstring * any)) (entry : jsstring * any)
  : heap * list (jsstring * any) :=
  let updatedStrategies := assign entry.1 entry.2 acc.2 in
  match entry.2 with
  | v_object strategy =>
      match acc.1 !! strategy with
      | Some o =>
          let found := read acc.1 filteredCommitsByPath entry.1 in
          let '(h1, value) :=
            if to_boolean found then (acc.1, found)
            else
              let '(h', empty) := alloc acc.1 (h_commits [] []) in
              (h', v_object empty) in
          (<[strategy := with_commits value o]> h1, updatedStrategies)
      | None => (acc.1, updatedStrategies)
      end
  | _ => (acc.1, updatedStrategies)
  end.

Definition preconfigure (this : FeatureFlagPlugin)
    (strategiesByPath commitsByPath releasesByPath : ref) (h : heap)
  : heap * ref :=
  let collected :=
    foldl (collect_path this) (h, []) (entries h commitsByPath) in
  let injected :=
    foldl (inject collected.2) (collected.1, [])
          (entries collected.1 strategiesByPath) in
  alloc injected.1 (h_record injected.2).

End History.

End Backfill.

(** ** What the pattern recognises

    The texts in which [/Feature-Flag:\s*(\w+)/i] finds a match, said without
    the matcher: somewhere in the text the label, in any letter case, is
    followed by white space (possibly none) and a word character. *)

Definition same_letters (l1 l2 : jsstring) : Prop :=
  Forall2 (λ a b, canonicalize a = canonicalize b) l1 l2.

Definition marker_at (s : jsstring) : Prop :=
  ∃ l sp c rest,
    s = l ++ sp ++ c :: rest ∧ same_letters label l ∧
    Forall (λ x, is_space x = true) sp ∧ is_word c = true.

Definition has_marker (s : jsstring) : Prop :=
  ∃ pre s', s = pre ++ s' ∧ marker_at s'.

(** A text in which no label is followed by a name: after each occurrence
    of the label, in any letter case, and the white space that follows it,
    the text ends or goes on with a character that is not a word
    character. *)
Definition nameless (text : jsstring) : Prop :=
  ∀ pre l rest,
    text = pre ++ l ++ rest → same_letters label l →
    match drop_while is_space rest with
    | c :: _ => is_word c = false
    | [] => True
    end.

(** The properties of an object other than [_commits], in their order. *)
Definition other_properties (props : list (jsstring * any))
  : list (jsstring * any) :=
  List.filter (λ kv, negb (bool_decide (kv.1 = code_units "_commits"))) props.

(** An object as it was, or with its other properties as they were: a
    plain object, or an array with the elements it had. *)
Definition same_but_commits (o o' : heap_object) : Prop :=
  o = o' ∨
  (∃ props props',
     o = h_record props ∧ o' = h_record props' ∧
     other_properties props' = other_properties props) ∨
  (∃ elems named named',
     o = h_commits elems named ∧ o' = h_commits elems named' ∧
     other_properties named' = other_properties named).


(** The text before the first occurrence of a separator, or the whole text
    when there is none. *)
Definition upto (sep s : jsstring) : jsstring :=
  match cut sep s with
  | Some (before, _) => before
  | None => s
  end.

(** The arrays that the entries of [commitsByPath] refer to. *)
Definition referenced (props : list (jsstring * any)) : list ref :=
  props ≫= (λ e, match e.2 with v_object r => [r] | _ => [] end).

(** ** The marker as the specification words it

    Modelled on the spec's words, to be compared with [flagMatch]: the marker
    is a line matching [Feature-Flag: <token>], so the label and the name
    stand on one line.  Between them only white space that ends no line is
    skipped. *)

Definition is_blank (c : N) : bool :=
  is_space c && negb (is_line_terminator c).

Definition line_marker_here (s : jsstring) : option jsstring :=
  match match_literal label s with
  | Some rest =>
      match take_while is_word (drop_while is_blank rest) with
      | [] => None
      | name => Some name
      end
  | None => None
  end.

Fixpoint line_marker (s : jsstring) : option jsstring :=
  match line_marker_here s with
  | Some name => Some name
  | None =>
      match s with
      | [] => None
      | _ :: s' => line_marker s'
      end
  end.

(** ** Inputs of the examples *)

Definition LF : jsstring := [10].

Definition variable (name value : string) : jsstring * jsstring :=
  (code_units name, code_units value).

Definition env_of (vars : list (jsstring * jsstring))
  : gmap jsstring jsstring := list_to_map vars.

Definition commit_of (id : string) (text : jsstring) : Commit :=
  {| sha := code_units id; message := text; pullRequest := None |}.

Definition commit_with_pr (id : string) (text pr_body : jsstring) : Commit :=
  {| sha := code_units id; message := text;
     pullRequest := Some {| body := pr_body |} |}.

(** The body of the pull request of a commit, empty when it has none. *)
Definition body_of (commit : Commit) : jsstring :=
  match pullRequest commit with
  | Some pr => body pr
  | None => []
  end.

(** A heap with [strategiesByPath] at 1, [commitsByPath] at 2 with the one
    path ["."], [releasesByPath] at 3 and the commits of the path at 4. *)
Definition one_path (commits : list Commit) : heap :=
  <[1%positive := h_record []]>
    (<[2%positive := h_record [(code_units ".", v_object 4%positive)]]>
       (<[3%positive := h_record []]>
          (<[4%positive := h_commits commits []]> ∅))).

(** The same heap with one strategy for the path, a plain object at 5. *)
Definition one_strategy (commits : list Commit) : heap :=
  <[1%positive := h_record [(code_units ".", v_object 5%positive)]]>
    (<[5%positive :=
         h_record [(code_units "type", v_string (code_units "node"))]]>
       (one_path commits)).


(** A heap in which [strategiesByPath], at 1, has a plain strategy, at 5,
    for the path [constructor]; [commitsByPath] at 2 and [releasesByPath] at
    3 are empty. *)
Definition constructor_strategy : heap :=
  <[1%positive := h_record [(code_units "constructor", v_object 5%positive)]]>
    (<[2%positive := h_record []]>
       (<[3%positive := h_record []]>
          (<[5%positive :=
               h_record [(code_units "type", v_string (code_units "node"))]]>
             ∅))).

(** Environment [FEATURE_X=true]; commits A (no marker), B (marker of
    [FEATURE_X]) and C (marker of [FEATURE_Y]). *)
Definition env_x : gmap jsstring jsstring := env_of [variable "FEATURE_X" "true"].
Definition commit_A : Commit := commit_of "aaa" (code_units "feat: a").
Definition commit_B : Commit :=
  commit_of "bbb"
    (code_units "feat: b" ++ LF ++ LF ++ code_units "Feature-Flag: FEATURE_X").
Definition commit_C : Commit :=
  commit_of "ccc"
    (code_units "feat: c" ++ LF ++ LF ++ code_units "Feature-Flag: FEATURE_Y").

(** The commits B and C with the markers written as the names [X] and [Y]
    alone. *)
Definition commit_bare_X : Commit :=
  commit_of "bbb" (code_units "feat: b" ++ LF ++ LF ++ code_units "Feature-Flag: X").
Definition commit_bare_Y : Commit :=
  commit_of "ccc" (code_units "feat: c" ++ LF ++ LF ++ code_units "Feature-Flag: Y").

(** The test "should only load FEATURE_* environment variables". *)
Definition env_not_a_feature : gmap jsstring jsstring :=
  env_of [variable "FEATURE_ENABLED" "true"; variable "NOT_A_FEATURE" "true";
          variable "RANDOM_VAR" "true"].
Definition commit_not_a_feature : Commit :=
  commit_of "abc"
    (code_units "feat: test" ++ LF ++ LF
     ++ code_units "Feature-Flag: NOT_A_FEATURE").

(** The test "should respect feature flags in PR commit overrides". *)
Definition env_enabled : gmap jsstring jsstring :=
  env_of [variable "FEATURE_ENABLED" "true"].
Definition commit_override_enabled : Commit :=
  commit_with_pr "abc" (code_units "Regular commit message")
    (code_units "Some PR description" ++ LF ++ LF
     ++ code_units "BEGIN_COMMIT_OVERRIDE" ++ LF
     ++ code_units "feat: override with enabled flag" ++ LF ++ LF
     ++ code_units "Feature-Flag: FEATURE_ENABLED" ++ LF
     ++ code_units "END_COMMIT_OVERRIDE").
Definition commit_override_disabled : Commit :=
  commit_with_pr "def" (code_units "Another commit")
    (code_units "BEGIN_COMMIT_OVERRIDE" ++ LF
     ++ code_units "feat: override with disabled flag" ++ LF ++ LF
     ++ code_units "Feature-Flag: FEATURE_DISABLED" ++ LF
     ++ code_units "END_COMMIT_OVERRIDE").

(** A label with no name on its line, followed by a trailer line. *)
Definition commit_nameless : Commit :=
  commit_of "abc"
    (code_units "fix: y" ++ LF ++ LF ++ code_units "Feature-Flag:" ++ LF
     ++ code_units "Signed-off-by: Bob").

(** ** Conventional-commit headers and historical commits

    The helpers of [findHistoricalCommits], the same in every rendering. *)

(** [[\w-]]. *)
Definition is_scope_char (c : N) : bool := is_word c || (c =? 45).

(** [message.match(/^(\w+)(?:\([\w-]+\))?:/)], element 1.  After the longest
    run of word characters comes [:], or a parenthesised run of scope
    characters and then [:].  A shorter run of word characters is followed by
    a word character, which is neither [(] nor [:], so backtracking finds
    nothing more; the same holds inside the parentheses. *)
Definition extractCommitType (message : jsstring) : option jsstring :=
  match take_while is_word message with
  | [] => None
  | type =>
      match drop_while is_word message with
      | c :: rest =>
          if c =? 58 then Some type
          else if c =? 40 then
            match take_while is_scope_char rest,
                  drop_while is_scope_char rest with
            | _ :: _, c1 :: c2 :: _ =>
                if (c1 =? 41) && (c2 =? 58) then Some type else None
            | _, _ => None
            end
          else None
      | [] => None
      end
  end.

(** [message.match(/^\w+\(([\w-]+)\):/)], element 1. *)
Definition extractCommitScope (message : jsstring) : option jsstring :=
  match take_while is_word message with
  | [] => None
  | _ :: _ =>
      match drop_while is_word message with
      | c :: rest =>
          if c =? 40 then
            match take_while is_scope_char rest,
                  drop_while is_scope_char rest with
            | [], _ => None
            | scope, c1 :: c2 :: _ =>
                if (c1 =? 41) && (c2 =? 58) then Some scope else None
            | _, _ => None
            end
          else None
      | [] => None
      end
  end.

(** The commits of [commitsByPath], under a second name for use where
    [Commit] is the historical one. *)
Abbreviation PipelineCommit := Commit.

(** The commit of [commitsByPath] with a given [sha] and [message]. *)
Definition plain_commit (id text : jsstring) : Commit :=
  {| sha := id; message := text; pullRequest := None |}.

Module Historical.

(** The element types of [notes] and [references] are the host's; the
    plugin builds empty arrays only. *)
Inductive note := .
Inductive reference := .

(** The object that [findHistoricalCommits] pushes. *)
Record Commit := {
  sha : jsstring;
  message : jsstring;
  files : list jsstring;
  type : option jsstring;
  scope : option jsstring;
  bareMessage : jsstring;
  notes : list note;
  references : list reference;
  breaking : bool
}.

Definition to_commit (commit : Commit) : PipelineCommit :=
  plain_commit (sha commit) (message commit).

Section Exec.

(** [execSync(command, ...)]: the output, or [None] when the call throws. *)
Variable execSync : jsstring → option jsstring.

Definition grepPattern (flag : jsstring) : jsstring :=
  code_units "Feature-Flag: " ++ flag.

(** The command line; 34 is the double quote. *)
Definition command (flag : jsstring) : jsstring :=
  code_units "git log --all --grep=" ++ [34] ++ grepPattern flag ++ [34]
  ++ code_units " --format=" ++ [34] ++ code_units "%H|%s|%b|%an|%ae" ++ [34].

(** [`${subject}\n\n${body}`] when [body] is not empty, else [subject]. *)
Definition reconstruct (subject body : jsstring) : jsstring :=
  match body with
  | [] => subject
  | _ :: _ => subject ++ [10; 10] ++ body
  end.

Definition historical (id subject body : jsstring) : Commit :=
  {| sha := id;
     message := reconstruct subject body;
     files := [];
     type := extractCommitType subject;
     scope := extractCommitScope subject;
     bareMessage := subject;
     notes := [];
     references := [];
     breaking := false |}.

(** One turn of the loop over the lines in [src/plugins/feature-flags.ts]
    and the compiled file; [None] is [continue]. *)
Definition parse_line (line : jsstring) : option Commit :=
  let parts := split [124] line in
  let id := default [] (parts !! 0%nat) in
  let subject := default [] (parts !! 1%nat) in
  let body := default [] (parts !! 2%nat) in
  match id, subject with
  | [], _ | _, [] => None
  | _, _ => Some (historical id subject body)
  end.

(** The body of [try] for one flag; the [catch] adds nothing. *)
Definition commits_of_flag (flag : jsstring) : list Commit :=
  match execSync (command flag) with
  | None => []
  | Some output =>
      match trim output with
      | [] => []
      | _ :: _ => omap parse_line (split [10] (trim output))
      end
  end.

Definition findHistoricalCommits (flags : list jsstring) : list Commit :=
  flags ≫= commits_of_flag.

(** One turn of the loop in the rendering with history, where the parts are
    taken by destructuring and no line is skipped: with no second part
    [subject] is [undefined] and [extractCommitType(subject)] throws, which
    is [None] here. *)
Definition parse_line_destructured (line : jsstring) : option Commit :=
  let parts := split [124] line in
  match parts !! 1%nat with
  | None => None
  | Some subject =>
      Some (historical (default [] (parts !! 0%nat)) subject
                       (default [] (parts !! 2%nat)))
  end.

(** The loop over the lines up to the first throw: the commits pushed
    before it stay, the [catch] ends the flag. *)
Fixpoint until_throw (lines : list jsstring) : list Commit :=
  match lines with
  | [] => []
  | line :: lines' =>
      match parse_line_destructured line with
      | None => []
      | Some commit => commit :: until_throw lines'
      end
  end.

Definition commits_of_flag_destructured (flag : jsstring) : list Commit :=
  match execSync (command flag) with
  | None => []
  | Some output =>
      match trim output with
      | [] => []
      | _ :: _ => until_throw (split [10] (trim output))
      end
  end.

Definition findHistoricalCommits_destructured (flags : list jsstring)
  : list Commit :=
  flags ≫= commits_of_flag_destructured.

End Exec.

End Historical.

(** ** Words for the further properties *)

(** [sep] occurs in [s]. *)
Definition occurs_in (sep s : jsstring) : Prop := ∃ a b, s = a ++ sep ++ b.

(** No white space at either end. *)
Definition trimmed (s : jsstring) : Prop :=
  (∀ c rest, s = c :: rest → is_space c = false) ∧
  (∀ c front, s = front ++ [c] → is_space c = false).

(** ** Records of one line

    The text that the loop of [findHistoricalCommits] reads back in full:
    one line for each record, the five fields of the format
    [%H|%s|%b|%an|%ae] separated by [|] (124), the lines by line feeds (10).
    This is a shape of text, not what [git] prints in general: [git] ends
    the body [%b] with a line feed and prints a body of several lines as
    such, so that only a commit with an empty body is printed as one such
    line. *)

Fixpoint join (c : N) (parts : list jsstring) : jsstring :=
  match parts with
  | [] => []
  | [part] => part
  | part :: parts' => part ++ [c] ++ join c parts'
  end.

Record log_entry := {
  hash : jsstring;
  subject : jsstring;
  text : jsstring;
  author_name : jsstring;
  author_email : jsstring
}.

Definition fields (entry : log_entry) : list jsstring :=
  [hash entry; subject entry; text entry; author_name entry;
   author_email entry].

Definition record_line (entry : log_entry) : jsstring :=
  join 124 (fields entry).

Definition log_output (entries : list log_entry) : jsstring :=
  join 10 (record_line <$> entries).

(** No field holds a separator, and the hash and the subject are not
    empty. *)
Definition plain_entry (entry : log_entry) : Prop :=
  Forall (λ field, (124 ∉ field) ∧ (10 ∉ field)) (fields entry) ∧
  hash entry ≠ [] ∧ subject entry ≠ [].

Definition of_entry (entry : log_entry) : Historical.Commit :=
  Historical.historical (hash entry) (subject entry) (text entry).

(** * Strings and the pattern *)

Lemma space_not_word c : is_space c = true → is_word c = false.
Proof.
  unfold is_space, is_white_space, is_line_terminator, is_word.
  intros Hs. apply not_true_iff_false. intros Hw.
  rewrite !orb_true_iff, !andb_true_iff, ?N.eqb_eq, ?N.leb_le in Hs.
  rewrite !orb_true_iff, !andb_true_iff, ?N.eqb_eq, ?N.leb_le in Hw.
  lia.
Qed.

Lemma take_drop_while f s : take_while f s ++ drop_while f s = s.
Proof.
  induction s as [|c s IH]; simpl; [done|].
  destruct (f c); simpl; [by rewrite IH | done].
Qed.

Lemma take_while_Forall f s : Forall (λ x, f x = true) (take_while f s).
Proof.
  induction s as [|c s IH]; simpl; [constructor|].
  destruct (f c) eqn:E; by constructor.
Qed.

Lemma drop_while_app f sp s :
  Forall (λ x, f x = true) sp → drop_while f (sp ++ s) = drop_while f s.
Proof. induction 1 as [|c sp Hc _ IH]; simpl; [done|]. by rewrite Hc. Qed.

Lemma drop_while_head f c s : f c = false → drop_while f (c :: s) = c :: s.
Proof. intros H. simpl. by rewrite H. Qed.

Lemma take_while_nil f s :
  take_while f s = [] ↔ match s with c :: _ => f c = false | [] => True end.
Proof.
  destruct s as [|c s]; simpl; [done|].
  destruct (f c); split; congruence.
Qed.

Lemma strip_prefix_Some p s rest : strip_prefix p s = Some rest ↔ s = p ++ rest.
Proof.
  revert s. induction p as [|a p IH]; intros s; simpl.
  - split; congruence.
  - destruct s as [|c s]; [split; congruence|].
    destruct (N.eqb_spec a c) as [->|Hne].
    + rewrite IH. split; congruence.
    + split; congruence.
Qed.

Lemma startsWith_prefix s p : startsWith s p = true ↔ p `prefix_of` s.
Proof.
  unfold startsWith. split.
  - destruct (strip_prefix p s) as [rest|] eqn:E; [|done].
    intros _. exists rest. by apply strip_prefix_Some.
  - intros [rest ->].
    by rewrite (proj2 (strip_prefix_Some p (p ++ rest) rest) eq_refl).
Qed.

Lemma match_literal_Some pat s rest :
  match_literal pat s = Some rest ↔ ∃ l, s = l ++ rest ∧ same_letters pat l.
Proof.
  revert s. induction pat as [|p pat IH]; intros s; simpl.
  - split.
    + intros [= ->]. exists []. split; [done | constructor].
    + intros (l & -> & Hl). inversion Hl. done.
  - destruct s as [|c s].
    + split; [done|]. intros (l & Hs & Hl).
      inversion Hl; subst. discriminate.
    + destruct (N.eqb_spec (canonicalize p) (canonicalize c)) as [Hpc|Hpc].
      * rewrite IH. split.
        -- intros (l & -> & Hl). exists (c :: l). split; [done|].
           by constructor.
        -- intros (l & Hs & Hl). inversion Hl as [|? c' ? l' ? Hl']; subst.
           injection Hs as <- ->. by exists l'.
      * split; [done|]. intros (l & Hs & Hl).
        inversion Hl as [|? c' ? l' ? Hl']; subst.
        injection Hs as <- ->. done.
Qed.

Lemma match_here_Some s name :
  match_here s = Some name →
  name ≠ [] ∧ Forall (λ x, is_word x = true) name ∧
  ∃ l sp rest, s = l ++ sp ++ name ++ rest ∧ same_letters label l ∧
               Forall (λ x, is_space x = true) sp.
Proof.
  unfold match_here.
  destruct (match_literal label s) as [after|] eqn:Hl; [|done].
  apply match_literal_Some in Hl as (l & -> & Hl).
  destruct (take_while is_word (drop_while is_space after)) as [|c w] eqn:Hw;
    [done|].
  intros [= <-]. split; [done|]. split.
  { rewrite <- Hw. apply take_while_Forall. }
  exists l, (take_while is_space after),
         (drop_while is_word (drop_while is_space after)).
  split; [|split; [done | apply take_while_Forall]].
  by rewrite <- Hw, take_drop_while, take_drop_while.
Qed.

Lemma match_here_is_Some s : is_Some (match_here s) ↔ marker_at s.
Proof.
  split.
  - intros [name Hn]. apply match_here_Some in Hn as (Hne & Hw & l & sp & rest & -> & Hl & Hsp).
    destruct name as [|c name]; [done|].
    exists l, sp, c, (name ++ rest). by inversion Hw; subst.
  - intros (l & sp & c & rest & -> & Hl & Hsp & Hc).
    unfold match_here.
    rewrite (proj2 (match_literal_Some label (l ++ sp ++ c :: rest) (sp ++ c :: rest)))
      by (by exists l).
    rewrite drop_while_app by done.
    rewrite drop_while_head.
    + simpl. rewrite Hc. by eexists.
    + destruct (is_space c) eqn:E; [|done].
      apply space_not_word in E. congruence.
Qed.

Lemma flagMatch_is_Some s : is_Some (flagMatch s) ↔ has_marker s.
Proof.
  induction s as [|c s IH].
  - simpl. destruct (match_here []) as [name|] eqn:E.
    + split; [|by eexists]. intros _. exists [], [].
      split; [done|]. apply match_here_is_Some. by eexists.
    + split; [by intros [? ?]|].
      intros (pre & s' & Hs & Hm). symmetry in Hs.
      apply app_eq_nil in Hs as [-> ->].
      apply match_here_is_Some in Hm as [? Hm]. congruence.
  - simpl. destruct (match_here (c :: s)) as [name|] eqn:E.
    + split; [|by eexists]. intros _. exists [], (c :: s).
      split; [done|]. apply match_here_is_Some. by eexists.
    + rewrite IH. split.
      * intros (pre & s' & -> & Hm). by exists (c :: pre), s'.
      * intros (pre & s' & Hs & Hm). destruct pre as [|c' pre].
        -- simpl in Hs. subst s'.
           apply match_here_is_Some in Hm as [? Hm]. congruence.
        -- injection Hs as <- ->. by exists pre, s'.
Qed.

Lemma flagMatch_None s : flagMatch s = None ↔ ¬ has_marker s.
Proof.
  rewrite <- flagMatch_is_Some, <- eq_None_not_Some. done.
Qed.

(** * Splitting *)

Lemma cut_unfold sep s :
  cut sep s =
  match strip_prefix sep s with
  | Some rest => Some ([], rest)
  | None =>
      match s with
      | [] => None
      | c :: s' =>
          match cut sep s' with
          | Some (before, after) => Some (c :: before, after)
          | None => None
          end
      end
  end.
Proof. by destruct s. Qed.

Lemma cut_Some sep s before after :
  cut sep s = Some (before, after) → s = before ++ sep ++ after.
Proof.
  revert before. induction s as [|c s IH]; intros before; rewrite cut_unfold.
  - destruct (strip_prefix sep []) as [rest|] eqn:E; [|done].
    intros [= <- <-]. by apply strip_prefix_Some in E.
  - destruct (strip_prefix sep (c :: s)) as [rest|] eqn:E.
    + intros [= <- <-]. by apply strip_prefix_Some in E.
    + destruct (cut sep s) as [[b a]|]; [|done].
      intros [= <- <-]. simpl. f_equal. by apply IH.
Qed.

(** The cut is at the first occurrence. *)
Lemma cut_first sep s before after :
  cut sep s = Some (before, after) →
  ∀ a b, s = a ++ sep ++ b → (length before ≤ length a)%nat.
Proof.
  revert before. induction s as [|c s IH]; intros before; rewrite cut_unfold.
  - destruct (strip_prefix sep []) as [rest|] eqn:E; [|done].
    intros [= <- <-] a b _. simpl. lia.
  - destruct (strip_prefix sep (c :: s)) as [rest|] eqn:E.
    + intros [= <- <-] a b _. simpl. lia.
    + destruct (cut sep s) as [[b0 a0]|] eqn:Hc; [|done].
      intros [= <- <-] a b Hs. destruct a as [|c' a].
      * simpl in Hs. apply strip_prefix_Some in Hs. congruence.
      * injection Hs as <- Hs. simpl.
        specialize (IH b0 eq_refl a b Hs). lia.
Qed.

Lemma cut_None sep s : cut sep s = None → ∀ a b, s ≠ a ++ sep ++ b.
Proof.
  induction s as [|c s IH]; rewrite cut_unfold.
  - destruct (strip_prefix sep []) as [rest|] eqn:E; [done|].
    intros _ a b Hs. destruct a as [|c a]; [|done].
    simpl in Hs. apply strip_prefix_Some in Hs. congruence.
  - destruct (strip_prefix sep (c :: s)) as [rest|] eqn:E; [done|].
    destruct (cut sep s) as [[b0 a0]|] eqn:Hc; [done|].
    intros _ a b Hs. destruct a as [|c' a].
    + simpl in Hs. apply strip_prefix_Some in Hs. congruence.
    + injection Hs as <- Hs. by apply (IH eq_refl a b).
Qed.

Lemma cut_intro sep s before after :
  s = before ++ sep ++ after →
  (∀ a b, s = a ++ sep ++ b → (length before ≤ length a)%nat) →
  cut sep s = Some (before, after).
Proof.
  intros Hs Hfirst. destruct (cut sep s) as [[b a]|] eqn:Hc.
  - pose proof (cut_Some _ _ _ _ Hc) as Hs'.
    pose proof (cut_first _ _ _ _ Hc before after Hs) as H1.
    pose proof (Hfirst b a Hs') as H2.
    rewrite Hs in Hs'. apply app_inj_1 in Hs' as [-> Hs']; [|lia].
    by apply app_inv_head in Hs' as ->.
  - by destruct (cut_None _ _ Hc before after).
Qed.

Lemma cut_length sep s before after :
  cut sep s = Some (before, after) →
  length s = (length before + length sep + length after)%nat.
Proof. intros ->%cut_Some. rewrite !length_app. lia. Qed.

(** The bound of [split] is never reached: a larger one gives the same
    pieces. *)
Lemma split_upto_enough sep : sep ≠ [] → ∀ n m s,
  (length s ≤ n)%nat → (length s ≤ m)%nat →
  split_upto n sep s = split_upto m sep s.
Proof.
  intros Hsep. assert (0 < length sep)%nat as Hlen
    by (destruct sep; [done | simpl; lia]).
  assert (cut sep [] = None) as Hnil by (by destruct sep).
  induction n as [|n IH]; intros m s Hn Hm.
  - destruct s; [|simpl in Hn; lia].
    destruct m; cbn [split_upto]; by rewrite Hnil.
  - destruct m as [|m].
    + destruct s; [|simpl in Hm; lia].
      cbn [split_upto]; by rewrite Hnil.
    + cbn [split_upto]. destruct (cut sep s) as [[b a]|] eqn:Hc; [|done].
      apply cut_length in Hc. f_equal. apply IH; lia.
Qed.

Lemma split_upto_head n sep s : split_upto n sep s !! 0%nat = Some (upto sep s).
Proof.
  unfold upto. destruct n; simpl; by destruct (cut sep s) as [[b a]|].
Qed.

Lemma split_0 sep s : split sep s !! 0%nat = Some (upto sep s).
Proof. apply split_upto_head. Qed.

Lemma split_1 sep s :
  sep ≠ [] →
  split sep s !! 1%nat =
  match cut sep s with
  | Some (_, after) => Some (upto sep after)
  | None => None
  end.
Proof.
  intros Hsep. unfold split. destruct (cut sep s) as [[b a]|] eqn:Hc.
  - destruct (length s) as [|n] eqn:Hlen.
    + apply cut_length in Hc. destruct sep; [done | simpl in Hc; lia].
    + simpl. rewrite Hc. simpl. apply split_upto_head.
  - destruct (length s); simpl; by rewrite Hc.
Qed.

(** The override text of the compiled file: the text after the first
    [BEGIN_COMMIT_OVERRIDE], up to the next [BEGIN_COMMIT_OVERRIDE], the next
    [END_COMMIT_OVERRIDE] or the end of the body, trimmed; empty when the
    body has no [BEGIN_COMMIT_OVERRIDE]. *)
Lemma overrideMessage_eq body :
  Build.overrideMessage body =
  trim (upto Build.END_COMMIT_OVERRIDE
          match cut Build.BEGIN_COMMIT_OVERRIDE body with
          | Some (_, after) => upto Build.BEGIN_COMMIT_OVERRIDE after
          | None => []
          end).
Proof.
  unfold Build.overrideMessage. rewrite split_1 by done. rewrite split_0.
  simpl. by destruct (cut Build.BEGIN_COMMIT_OVERRIDE body) as [[b a]|].
Qed.

Lemma upto_intro sep s before after :
  s = before ++ sep ++ after →
  (∀ a b, s = a ++ sep ++ b → (length before ≤ length a)%nat) →
  upto sep s = before.
Proof. intros Hs Hfirst. unfold upto. by rewrite (cut_intro _ _ _ _ Hs Hfirst). Qed.

(** A body with a block: the first [BEGIN_COMMIT_OVERRIDE] of the body, then
    [mid], then the first [END_COMMIT_OVERRIDE] after it, and no other
    [BEGIN_COMMIT_OVERRIDE] before that block ends.  The override text is
    [mid], trimmed. *)
Lemma overrideMessage_block pre mid post :
  let BEGIN := Build.BEGIN_COMMIT_OVERRIDE in
  let END := Build.END_COMMIT_OVERRIDE in
  let body := pre ++ BEGIN ++ mid ++ END ++ post in
  (∀ a b, body = a ++ BEGIN ++ b → (length pre ≤ length a)%nat) →
  (∀ a b, mid ++ END ++ post = a ++ BEGIN ++ b →
          (length (mid ++ END) ≤ length a)%nat) →
  (∀ a b, mid ++ END ++ post = a ++ END ++ b → (length mid ≤ length a)%nat) →
  Build.overrideMessage body = trim mid.
Proof.
  intros BEGIN END body Hbegin Hinner Hend.
  rewrite overrideMessage_eq. fold BEGIN END.
  rewrite (cut_intro BEGIN body pre (mid ++ END ++ post) eq_refl Hbegin).
  f_equal. unfold upto at 2.
  destruct (cut BEGIN (mid ++ END ++ post)) as [[b a]|] eqn:Hc.
  - pose proof (cut_Some _ _ _ _ Hc) as Hs.
    pose proof (Hinner b a Hs) as Hlen.
    assert (∃ k, b = mid ++ END ++ k) as [k ->].
    { rewrite (app_assoc mid END post) in Hs.
      apply app_eq_inv in Hs as [(k & Hk & _)|(k & Hk & _)].
      - assert (k = []) as ->.
        { apply length_zero_iff_nil. pose proof (f_equal length Hk) as Hk'.
          rewrite length_app in Hlen. rewrite 2!length_app in Hk'. lia. }
        exists []. by rewrite !app_nil_r in *.
      - exists k. by rewrite Hk, <- app_assoc. }
    apply upto_intro with k; [done|].
    intros a0 b0 Hs0. apply (Hend a0 (b0 ++ BEGIN ++ a)).
    rewrite Hs, Hs0. by rewrite <- !app_assoc.
  - by apply upto_intro with post.
Qed.

Lemma overrideMessage_absent body :
  (∀ a b, body ≠ a ++ Build.BEGIN_COMMIT_OVERRIDE ++ b) →
  Build.overrideMessage body = [].
Proof.
  intros Hno. rewrite overrideMessage_eq.
  destruct (cut Build.BEGIN_COMMIT_OVERRIDE body) as [[b a]|] eqn:Hc; [|done].
  apply cut_Some in Hc. by destruct (Hno b a).
Qed.

(** * The set of enabled flags *)

Lemma load_entry_enabled this key value flag :
  flag ∈ enabledFlags (load_entry this (key, value)) ↔
  flag ∈ enabledFlags this ∨
  (flag = key ∧ code_units "FEATURE_" `prefix_of` key ∧
   value = code_units "true").
Proof.
  unfold load_entry. rewrite <- startsWith_prefix.
  destruct (startsWith key (code_units "FEATURE_")).
  - destruct (bool_decide_reflect (value = code_units "true")) as [Hv|Hv].
    + subst value.
      destruct (bool_decide_reflect (code_units "true" = code_units "false"))
        as [Hf|_]; [by vm_compute in Hf|].
      simpl. rewrite elem_of_union, elem_of_singleton. tauto.
    + destruct (bool_decide (value = code_units "false")); simpl; tauto.
  - split; [by left|]. by intros [?|(_ & ? & _)].
Qed.

Lemma foldl_load_entry_enabled l this flag :
  flag ∈ enabledFlags (foldl load_entry this l) ↔
  flag ∈ enabledFlags this ∨
  (code_units "FEATURE_" `prefix_of` flag ∧ (flag, code_units "true") ∈ l).
Proof.
  revert this. induction l as [|[key value] l IH]; intros this; cbn [foldl].
  - split; [by left|]. intros [?|[_ H]]; [done|]. by apply elem_of_nil in H.
  - rewrite IH, load_entry_enabled, elem_of_cons. split.
    + intros [[H|(-> & Hp & ->)]|[Hp H]]; [by left | right | right]; auto.
    + intros [H|[Hp [[= -> ->]|H]]]; [left; by left | left; right | right];
        auto.
Qed.

Lemma elem_of_enabledFlags (env : gmap jsstring jsstring) flag :
  flag ∈ enabledFlags (constructor env) ↔
  code_units "FEATURE_" `prefix_of` flag ∧ env !! flag = Some (code_units "true").
Proof.
  unfold constructor. rewrite foldl_load_entry_enabled, elem_of_map_to_list.
  simpl. rewrite elem_of_empty. tauto.
Qed.

Lemma has_true flags flag : has flags flag = true ↔ flag ∈ flags.
Proof. unfold has. by rewrite bool_decide_eq_true. Qed.

Lemma decide_on_Some this text flag :
  flagMatch text = Some flag →
  decide_on this text = true ↔ flag ∈ enabledFlags this.
Proof. intros H. unfold decide_on. rewrite H. apply has_true. Qed.

Lemma decide_on_None this text :
  flagMatch text = None → decide_on this text = true.
Proof. intros H. unfold decide_on. by rewrite H. Qed.

Lemma Src_shouldIncludeCommit_eq this commit :
  Src.shouldIncludeCommit this commit = decide_on this (message commit).
Proof. done. Qed.

Lemma Build_shouldIncludeCommit_eq this commit :
  Build.shouldIncludeCommit this commit =
  decide_on this (Build.messageToCheck commit).
Proof. done. Qed.

Lemma Backfill_shouldIncludeCommit_eq this commit :
  Backfill.shouldIncludeCommit this commit = decide_on this (message commit).
Proof. done. Qed.

(** * The compaction loop *)

Lemma filter_filter (keep : Commit → bool) l :
  List.filter keep (List.filter keep l) = List.filter keep l.
Proof.
  induction l as [|c l IH]; simpl; [done|].
  destruct (keep c) eqn:E; simpl; [by rewrite E, IH | done].
Qed.

Lemma filter_all (keep : Commit → bool) l :
  Forall (λ c, keep c = true) l → List.filter keep l = l.
Proof. induction 1 as [|c l Hc _ IH]; simpl; [done|]. by rewrite Hc, IH. Qed.

Lemma filter_sublist (keep : Commit → bool) l : List.filter keep l `sublist_of` l.
Proof.
  induction l as [|c l IH]; simpl; [constructor|].
  destruct (keep c); by constructor.
Qed.

Lemma elem_of_filter (keep : Commit → bool) l c :
  c ∈ List.filter keep l ↔ c ∈ l ∧ keep c = true.
Proof. rewrite !list_elem_of_In. apply filter_In. Qed.

(** The loop invariant: the first [writeIndex] cells hold the commits kept so
    far, and the cells from [readIndex] on are as they were. *)
Lemma compact_spec keep n : ∀ readIndex writeIndex commits,
  (writeIndex ≤ readIndex)%nat →
  (length commits ≤ readIndex + n)%nat →
  take (compact keep n readIndex writeIndex commits).1
       (compact keep n readIndex writeIndex commits).2
  = take writeIndex commits ++ List.filter keep (drop readIndex commits).
Proof.
  induction n as [|n IH]; intros r w cs Hw Hlen; simpl.
  - rewrite drop_ge by lia. simpl. by rewrite app_nil_r.
  - destruct (cs !! r) as [c|] eqn:Hr; simpl.
    + pose proof (lookup_lt_Some _ _ _ Hr) as Hlt.
      rewrite (drop_S _ _ _ Hr). simpl.
      destruct (keep c) eqn:Hk.
      * rewrite IH by (rewrite ?length_insert; lia).
        rewrite drop_insert_lt by lia.
        rewrite (take_S_r _ _ c) by (apply list_lookup_insert_eq; lia).
        rewrite take_insert_ge by lia.
        by rewrite <- app_assoc.
      * by rewrite IH by lia.
    + apply lookup_ge_None in Hr. rewrite drop_ge by lia.
      simpl. by rewrite app_nil_r.
Qed.

Lemma filter_in_place_filter keep commits :
  filter_in_place keep commits = List.filter keep commits.
Proof.
  unfold filter_in_place.
  pose proof (compact_spec keep (length commits) 0 0 commits) as H.
  destruct (compact keep (length commits) 0 0 commits) as [w cs'].
  simpl in H. rewrite H by lia. done.
Qed.

(** * The in-place [preconfigure] on the heap *)

Section InPlace.

Variable keep : Commit → bool.

Lemma elem_of_referenced_cons e props r :
  r ∈ referenced (e :: props) ↔ e.2 = v_object r ∨ r ∈ referenced props.
Proof.
  unfold referenced. rewrite bind_cons, elem_of_app.
  destruct e as [path v]; simpl.
  destruct v; rewrite ?elem_of_nil, ?list_elem_of_singleton;
    split; intros [H|H]; auto; try discriminate; try tauto.
  - left. by subst.
  - left. by injection H.
Qed.

Lemma elem_of_referenced props path r :
  (path, v_object r) ∈ props → r ∈ referenced props.
Proof.
  induction props as [|e props IH]; [by intros ?%elem_of_nil|].
  rewrite elem_of_cons, elem_of_referenced_cons.
  intros [<-|H]; [by left | right; auto].
Qed.

(** One turn leaves alone whatever is not a commit array. *)
Lemma filter_path_other h e r :
  (∀ elems named, h !! r ≠ Some (h_commits elems named)) →
  filter_path keep h e !! r = h !! r.
Proof.
  intros Hr. unfold filter_path.
  destruct e.2 as [| | | | | |commits]; try done.
  destruct (h !! commits) as [[elems named|props]|] eqn:Hc; try done.
  destruct (decide (commits = r)) as [->|Hne].
  - by destruct (Hr elems named).
  - by rewrite lookup_insert_ne.
Qed.

Lemma filter_path_hit h e r elems named :
  e.2 = v_object r → h !! r = Some (h_commits elems named) →
  filter_path keep h e !! r = Some (h_commits (List.filter keep elems) named).
Proof.
  intros He Hr. unfold filter_path. rewrite He, Hr.
  by rewrite lookup_insert_eq, filter_in_place_filter.
Qed.

Lemma filter_path_miss h e r :
  e.2 ≠ v_object r → filter_path keep h e !! r = h !! r.
Proof.
  intros He. unfold filter_path.
  destruct e.2 as [| | | | | |commits]; try done.
  destruct (h !! commits) as [[elems named|props]|] eqn:Hc; try done.
  rewrite lookup_insert_ne; [done|]. by intros ->.
Qed.

Lemma foldl_filter_path_other props : ∀ h r,
  (∀ elems named, h !! r ≠ Some (h_commits elems named)) →
  foldl (filter_path keep) h props !! r = h !! r.
Proof.
  induction props as [|e props IH]; intros h r Hr; cbn [foldl]; [done|].
  rewrite IH; rewrite filter_path_other; done.
Qed.

(** An array that has been filtered stays as it is. *)
Lemma foldl_filter_path_filtered props : ∀ h r elems named,
  h !! r = Some (h_commits (List.filter keep elems) named) →
  foldl (filter_path keep) h props !! r
  = Some (h_commits (List.filter keep elems) named).
Proof.
  induction props as [|e props IH]; intros h r elems named Hr; cbn [foldl];
    [done|].
  apply IH. destruct (decide (e.2 = v_object r)) as [He|He].
  - rewrite (filter_path_hit h e r _ _ He Hr). by rewrite filter_filter.
  - by rewrite filter_path_miss.
Qed.

Lemma foldl_filter_path_unreferenced props : ∀ h r,
  r ∉ referenced props → foldl (filter_path keep) h props !! r = h !! r.
Proof.
  induction props as [|e props IH]; intros h r Hr; cbn [foldl]; [done|].
  rewrite elem_of_referenced_cons in Hr.
  rewrite IH by tauto. apply filter_path_miss. tauto.
Qed.

Lemma foldl_filter_path_referenced props : ∀ h r elems named,
  r ∈ referenced props → h !! r = Some (h_commits elems named) →
  foldl (filter_path keep) h props !! r
  = Some (h_commits (List.filter keep elems) named).
Proof.
  induction props as [|e props IH]; intros h r elems named Hin Hr; cbn [foldl].
  - by apply elem_of_nil in Hin.
  - destruct (decide (e.2 = v_object r)) as [He|He].
    + apply foldl_filter_path_filtered. by apply filter_path_hit.
    + apply IH.
      * apply elem_of_referenced_cons in Hin. tauto.
      * by rewrite filter_path_miss.
Qed.

Lemma in_place_returns s c rl h : (preconfigure_in_place keep s c rl h).2 = s.
Proof. done. Qed.

Lemma in_place_array s c rl h props path r elems named :
  h !! c = Some (h_record props) → (path, v_object r) ∈ props →
  h !! r = Some (h_commits elems named) →
  (preconfigure_in_place keep s c rl h).1 !! r
  = Some (h_commits (List.filter keep elems) named).
Proof.
  intros Hc Hin Hr. unfold preconfigure_in_place, entries. rewrite Hc. simpl.
  apply foldl_filter_path_referenced; [|done].
  by apply elem_of_referenced with path.
Qed.

Lemma in_place_other s c rl h r :
  (∀ elems named, h !! r ≠ Some (h_commits elems named)) →
  (preconfigure_in_place keep s c rl h).1 !! r = h !! r.
Proof. intros Hr. by apply foldl_filter_path_other. Qed.

Lemma in_place_unreferenced s c rl h r :
  r ∉ referenced (entries h c) →
  (preconfigure_in_place keep s c rl h).1 !! r = h !! r.
Proof. intros Hr. by apply foldl_filter_path_unreferenced. Qed.

Lemma in_place_entries s c rl h o :
  entries (preconfigure_in_place keep s c rl h).1 o = entries h o.
Proof.
  unfold entries.
  destruct (h !! o) as [[elems named|props]|] eqn:Ho.
  - destruct (decide (o ∈ referenced (entries h c))) as [Hin|Hin].
    + unfold preconfigure_in_place. simpl.
      by rewrite (foldl_filter_path_referenced _ _ _ _ _ Hin Ho).
    + by rewrite in_place_unreferenced, Ho.
  - rewrite in_place_other, Ho; [done|]. intros elems' named'. by rewrite Ho.
  - rewrite in_place_other, Ho; [done|]. intros elems' named'. by rewrite Ho.
Qed.

Lemma in_place_idempotent s c rl h :
  (preconfigure_in_place keep s c rl
     (preconfigure_in_place keep s c rl h).1).1
  = (preconfigure_in_place keep s c rl h).1.
Proof.
  apply map_eq. intros r.
  set (h' := (preconfigure_in_place keep s c rl h).1).
  destruct (h !! r) as [[elems named|props]|] eqn:Hr.
  - destruct (decide (r ∈ referenced (entries h c))) as [Hin|Hin].
    + assert (h' !! r = Some (h_commits (List.filter keep elems) named)) as Hr'.
      { by apply foldl_filter_path_referenced. }
      rewrite Hr'. by apply foldl_filter_path_filtered.
    + apply in_place_unreferenced. unfold h'. by rewrite in_place_entries.
  - apply in_place_other. intros elems' named'. unfold h'.
    rewrite in_place_other; rewrite Hr; done.
  - apply in_place_other. intros elems' named'. unfold h'.
    rewrite in_place_other; rewrite Hr; done.
Qed.

End InPlace.

(** * Lemmas about the marker *)


Lemma take_while_app f name tail :
  Forall (λ x, f x = true) name →
  match tail with c :: _ => f c = false | [] => True end →
  take_while f (name ++ tail) = name.
Proof.
  intros Hn Ht. induction Hn as [|c name Hc _ IH]; simpl.
  - by apply take_while_nil.
  - by rewrite Hc, IH.
Qed.




Lemma no_marker_kept this text : ¬ has_marker text → decide_on this text = true.
Proof. intros H. by apply decide_on_None, flagMatch_None. Qed.

Lemma nameless_no_marker text : nameless text ↔ ¬ has_marker text.
Proof.
  split.
  - intros Hn (pre & s' & -> & l & sp & c & rest & -> & Hl & Hsp & Hc).
    specialize (Hn pre l (sp ++ c :: rest) eq_refl Hl).
    rewrite drop_while_app, drop_while_head in Hn by
      (done || (destruct (is_space c) eqn:E; [|done];
                apply space_not_word in E; congruence)).
    congruence.
  - intros Hn pre l rest -> Hl.
    destruct (drop_while is_space rest) as [|c tail] eqn:E; [done|].
    apply not_true_iff_false. intros Hc. apply Hn.
    exists pre, (l ++ rest). split; [done|].
    exists l, (take_while is_space rest), c, tail.
    split; [|split; [done|split; [apply take_while_Forall | done]]].
    by rewrite <- E, take_drop_while.
Qed.

(** A label that no name follows, where the white space skipped after the
    label includes line breaks, is no marker: the commit is kept. *)
Lemma nameless_label_kept this commit :
  (nameless (message commit) →
   flagMatch (message commit) = None ∧
   Src.shouldIncludeCommit this commit = true ∧
   Backfill.shouldIncludeCommit this commit = true) ∧
  (nameless (Build.messageToCheck commit) →
   flagMatch (Build.messageToCheck commit) = None ∧
   Build.shouldIncludeCommit this commit = true).
Proof.
  split; intros Hn%nameless_no_marker.
  - split; [by apply flagMatch_None|].
    rewrite Src_shouldIncludeCommit_eq, Backfill_shouldIncludeCommit_eq.
    split; by apply no_marker_kept.
  - split; [by apply flagMatch_None|].
    rewrite Build_shouldIncludeCommit_eq. by apply no_marker_kept.
Qed.

Example label_at_the_end_kept this :
  Src.shouldIncludeCommit this
    (commit_of "abc" (code_units "fix: y" ++ LF ++ code_units "Feature-Flag: "))
  = true.
Proof.
  refine (proj1 (proj2 (proj1 (nameless_label_kept this _) _))).
  apply nameless_no_marker, flagMatch_None. reflexivity.
Qed.

(** * What [preconfigure] leaves alone *)


Lemma alloc_old (h : heap) o r x :
  h !! r = Some x → (alloc h o).1 !! r = Some x.
Proof.
  intros Hr. unfold alloc. simpl. rewrite lookup_insert_ne; [done|].
  intros <-. apply (is_fresh (dom h)). apply elem_of_dom. by eexists.
Qed.

Lemma alloc_new (h : heap) o r x :
  (alloc h o).1 !! r = Some x → h !! r = Some x ∨ (h !! r = None ∧ x = o).
Proof.
  unfold alloc. simpl. intros Hr.
  destruct (decide (fresh (dom h) = r)) as [<-|Hne].
  - rewrite lookup_insert_eq in Hr. injection Hr as <-. right.
    split; [|done]. apply not_elem_of_dom, is_fresh.
  - rewrite lookup_insert_ne in Hr by done. by left.
Qed.

Lemma same_but_commits_cases o o' :
  same_but_commits o o' ↔
  match o, o' with
  | h_record props, h_record props' =>
      other_properties props' = other_properties props
  | h_commits elems named, h_commits elems' named' =>
      elems' = elems ∧ other_properties named' = other_properties named
  | _, _ => False
  end.
Proof.
  split.
  - intros [<-|[(p & p' & -> & -> & H)|(e & n & n' & -> & -> & H)]];
      [by destruct o | done | done].
  - destruct o as [e n|p], o' as [e' n'|p']; try done.
    + intros [-> H]. right. right. by exists e, n, n'.
    + intros H. right. left. by exists p, p'.
Qed.

Lemma same_but_commits_trans o1 o2 o3 :
  same_but_commits o1 o2 → same_but_commits o2 o3 → same_but_commits o1 o3.
Proof.
  rewrite !same_but_commits_cases.
  destruct o1, o2, o3; try done; [|congruence].
  intros [-> H12] [-> H23]. split; [done | congruence].
Qed.

Lemma same_but_commits_array elems named o' :
  same_but_commits (h_commits elems named) o' →
  ∃ named', o' = h_commits elems named' ∧
            other_properties named' = other_properties named.
Proof.
  rewrite same_but_commits_cases. destruct o' as [e' n'|p']; [|done].
  intros [-> H]. by exists n'.
Qed.

Lemma same_but_commits_record props o' :
  same_but_commits (h_record props) o' →
  ∃ props', o' = h_record props' ∧
            other_properties props' = other_properties props.
Proof.
  rewrite same_but_commits_cases. destruct o' as [e' n'|p']; [done|].
  intros H. by exists p'.
Qed.

Lemma other_properties_set value props :
  other_properties (set_property (code_units "_commits") value props)
  = other_properties props.
Proof.
  unfold other_properties. induction props as [|[k v] props IH]; simpl.
  - done.
  - destruct (bool_decide_reflect (k = code_units "_commits")) as [->|Hk];
      simpl.
    + done.
    + rewrite (bool_decide_eq_false_2 _ Hk). simpl. by rewrite IH.
Qed.


Lemma with_commits_same value o :
  same_but_commits o (Backfill.with_commits value o).
Proof.
  apply same_but_commits_cases. destruct o as [elems named|props]; simpl.
  - split; [done | apply other_properties_set].
  - apply other_properties_set.
Qed.

Lemma elem_of_set_property key value props key' :
  key' ∈ (set_property key value props).*1 ↔ key' = key ∨ key' ∈ props.*1.
Proof.
  induction props as [|[k v] props IH]; simpl.
  - rewrite list_elem_of_singleton, elem_of_nil. tauto.
  - destruct (bool_decide_reflect (k = key)) as [->|Hk]; simpl.
    + rewrite !elem_of_cons. tauto.
    + rewrite !elem_of_cons, IH. tauto.
Qed.




(** The heap after one turn of the second loop for a strategy in the
    heap. *)
Lemma inject_strategy inherited f acc path strategy o :
  acc.1 !! strategy = Some o →
  (Backfill.inject inherited f acc (path, v_object strategy)).1
  = (let found := Backfill.read inherited acc.1 f path in
     if Backfill.to_boolean found
     then <[strategy := Backfill.with_commits found o]> acc.1
     else <[strategy :=
              Backfill.with_commits (v_object (fresh (dom acc.1))) o]>
            (<[fresh (dom acc.1) := h_commits [] []]> acc.1)).
Proof.
  intros Hs. unfold Backfill.inject. simpl. rewrite Hs.
  by destruct (Backfill.to_boolean _).
Qed.

Lemma inject_heap inherited f acc e r o :
  acc.1 !! r = Some o →
  ∃ o', (Backfill.inject inherited f acc e).1 !! r = Some o' ∧
        same_but_commits o o' ∧ (e.2 ≠ v_object r → o' = o).
Proof.
  intros Hr. destruct e as [path value].
  destruct value as [| | | | | |strategy];
    try (exists o; split; [done|]; split; [by left | done]).
  destruct (acc.1 !! strategy) as [os|] eqn:Hs.
  - rewrite (inject_strategy inherited f acc path strategy os Hs). simpl.
    assert (fresh (dom acc.1) ≠ r) as Hfresh.
    { intros <-. apply (is_fresh (dom acc.1)). apply elem_of_dom.
      by eexists. }
    destruct (decide (strategy = r)) as [->|Hne].
    + assert (os = o) as -> by congruence.
      destruct (Backfill.to_boolean _); rewrite lookup_insert_eq;
        (eexists; split; [done|]; split; [apply with_commits_same|]);
        by intros [].
    + exists o. split; [|split; [by left | done]].
      destruct (Backfill.to_boolean _);
        rewrite !lookup_insert_ne by done; done.
  - exists o. unfold Backfill.inject. simpl. rewrite Hs.
    split; [done|]. split; [by left | done].
Qed.

Lemma foldl_inject_heap inherited f props : ∀ acc r o,
  acc.1 !! r = Some o →
  ∃ o', (foldl (Backfill.inject inherited f) acc props).1 !! r = Some o' ∧
        same_but_commits o o' ∧ (r ∉ referenced props → o' = o).
Proof.
  induction props as [|e props IH]; intros acc r o Hr; cbn [foldl].
  - exists o. split; [done|]. split; [by left | done].
  - destruct (inject_heap inherited f acc e r o Hr) as (o1 & H1 & Hs1 & He1).
    destruct (IH _ r o1 H1) as (o2 & H2 & Hs2 & He2).
    exists o2. split; [done|]. split.
    + by apply same_but_commits_trans with o1.
    + rewrite elem_of_referenced_cons. intros Hn.
      rewrite He2, He1; tauto.
Qed.

Section BackfillFrame.

Variable insertion_order : list jsstring.
Variable findHistoricalCommits : list jsstring → list Commit.
Variable inherited : option heap_object → jsstring → any.
Variable this : FeatureFlagPlugin.

Local Abbreviation collect :=
  (Backfill.collect_path insertion_order findHistoricalCommits this).
Local Abbreviation inject := (Backfill.inject inherited).

Lemma collect_path_old acc e r o :
  acc.1 !! r = Some o → (collect acc e).1 !! r = Some o.
Proof.
  intros Hr. unfold Backfill.collect_path.
  destruct e.2 as [| | | | | |commits]; try done.
  destruct (acc.1 !! commits) as [[elems named|props]|] eqn:Hc; try done.
  by apply alloc_old.
Qed.

Lemma collect_path_new acc e r o :
  (collect acc e).1 !! r = Some o →
  acc.1 !! r = Some o ∨ ∃ elems, o = h_commits elems [].
Proof.
  unfold Backfill.collect_path.
  destruct e.2 as [| | | | | |commits]; try by left.
  destruct (acc.1 !! commits) as [[elems named|props]|] eqn:Hc; try by left.
  intros [Hr|[_ ->]]%alloc_new; [by left | right; by eexists].
Qed.

Lemma foldl_collect_old props : ∀ acc r o,
  acc.1 !! r = Some o → (foldl collect acc props).1 !! r = Some o.
Proof.
  induction props as [|e props IH]; intros acc r o Hr; cbn [foldl]; [done|].
  by apply IH, collect_path_old.
Qed.

Lemma foldl_collect_new props : ∀ acc r o,
  (foldl collect acc props).1 !! r = Some o →
  acc.1 !! r = Some o ∨ ∃ elems, o = h_commits elems [].
Proof.
  induction props as [|e props IH]; intros acc r o Hr; cbn [foldl] in Hr;
    [by left|].
  apply IH in Hr as [Hr|Hr]; [|by right]. by apply collect_path_new in Hr.
Qed.

Lemma foldl_collect_entries props (h : heap) o :
  entries (foldl collect (h, []) props).1 o = entries h o.
Proof.
  unfold entries. destruct (h !! o) as [x|] eqn:Ho.
  - by rewrite (foldl_collect_old props (h, []) o x Ho).
  - destruct ((foldl collect (h, []) props).1 !! o) as [x|] eqn:Ho'; [|done].
    apply foldl_collect_new in Ho' as [Ho'|[elems ->]]; [|done].
    simpl in Ho'. congruence.
Qed.



End BackfillFrame.

(** * The override logic of the compiled file *)

Lemma body_with_block_truthy (pre rest : jsstring) :
  Build.truthy (pre ++ Build.BEGIN_COMMIT_OVERRIDE ++ rest) = true.
Proof. by destruct pre. Qed.

(** With a block in the body of the pull request the decision follows the
    trimmed text of the block, whatever the raw message holds; when that text
    is empty it follows the raw message. *)
Lemma Build_reads_block this commit pr pre mid post :
  let BEGIN := Build.BEGIN_COMMIT_OVERRIDE in
  let END := Build.END_COMMIT_OVERRIDE in
  pullRequest commit = Some pr →
  body pr = pre ++ BEGIN ++ mid ++ END ++ post →
  (∀ a b, body pr = a ++ BEGIN ++ b → (length pre ≤ length a)%nat) →
  (∀ a b, mid ++ END ++ post = a ++ BEGIN ++ b →
          (length (mid ++ END) ≤ length a)%nat) →
  (∀ a b, mid ++ END ++ post = a ++ END ++ b → (length mid ≤ length a)%nat) →
  Build.shouldIncludeCommit this commit
  = decide_on this (if Build.truthy (trim mid) then trim mid
                    else message commit).
Proof.
  intros BEGIN END Hpr Hbody Hbegin Hinner Hend. subst BEGIN END.
  rewrite Build_shouldIncludeCommit_eq. f_equal.
  unfold Build.messageToCheck. rewrite Hpr, Hbody.
  rewrite body_with_block_truthy.
  rewrite Hbody in Hbegin.
  by rewrite (overrideMessage_block pre mid post Hbegin Hinner Hend).
Qed.

(** With no pull request, or no [BEGIN_COMMIT_OVERRIDE] in its body, the
    decision follows the raw message. *)
Lemma Build_reads_message this commit :
  (∀ pr, pullRequest commit = Some pr →
         ∀ a b, body pr ≠ a ++ Build.BEGIN_COMMIT_OVERRIDE ++ b) →
  Build.shouldIncludeCommit this commit = decide_on this (message commit).
Proof.
  intros Hno. rewrite Build_shouldIncludeCommit_eq. f_equal.
  unfold Build.messageToCheck.
  destruct (pullRequest commit) as [pr|]; [|done].
  rewrite (overrideMessage_absent (body pr)) by by apply Hno.
  by destruct (Build.truthy (body pr)).
Qed.

Lemma Build_reads_block_witness :
  Build.shouldIncludeCommit (constructor env_enabled) commit_override_disabled
  = decide_on (constructor env_enabled)
      (code_units "feat: override with disabled flag" ++ LF ++ LF
       ++ code_units "Feature-Flag: FEATURE_DISABLED").
Proof.
  pose (mid := LF ++ code_units "feat: override with disabled flag" ++ LF ++ LF
               ++ code_units "Feature-Flag: FEATURE_DISABLED" ++ LF).
  apply (Build_reads_block (constructor env_enabled) commit_override_disabled
           {| body := body_of commit_override_disabled |} [] mid []).
  - reflexivity.
  - reflexivity.
  - intros a b Hab. simpl. lia.
  - intros a b Hab. exfalso.
    by apply (cut_None Build.BEGIN_COMMIT_OVERRIDE
                (mid ++ Build.END_COMMIT_OVERRIDE ++ []) eq_refl a b).
  - intros a b Hab.
    by apply (cut_first Build.END_COMMIT_OVERRIDE
                (mid ++ Build.END_COMMIT_OVERRIDE ++ []) mid [] eq_refl a b).
Defined.

Lemma Build_reads_message_witness :
  Build.shouldIncludeCommit (constructor env_x)
    (commit_with_pr "bbb" (message commit_B) (code_units "Only a description"))
  = decide_on (constructor env_x) (message commit_B).
Proof.
  apply (Build_reads_message (constructor env_x)
           (commit_with_pr "bbb" (message commit_B)
                           (code_units "Only a description"))).
  intros pr [= <-]. by apply cut_None.
Defined.

(** A block that is not closed is read to the end of the body. *)
Example unterminated_block :
  Build.overrideMessage
    (code_units "BEGIN_COMMIT_OVERRIDE" ++ LF
     ++ code_units "Feature-Flag: FEATURE_Y")
  = code_units "Feature-Flag: FEATURE_Y".
Proof. reflexivity. Qed.

(** A second [BEGIN_COMMIT_OVERRIDE] ends the text as well. *)
Example second_begin :
  Build.overrideMessage
    (code_units "BEGIN_COMMIT_OVERRIDE fix: a BEGIN_COMMIT_OVERRIDE "
     ++ code_units "Feature-Flag: FEATURE_Y END_COMMIT_OVERRIDE")
  = code_units "fix: a".
Proof. reflexivity. Qed.

(** The name in the marker is the whole name of the variable: with
    [FEATURE_X=true] a marker that says [X] names a flag that is not
    enabled. *)
Example bare_name_discarded :
  Src.shouldIncludeCommit (constructor env_x)
    (commit_of "bbb" (code_units "feat: b" ++ LF ++ LF
                      ++ code_units "Feature-Flag: X"))
  = false.
Proof. reflexivity. Qed.

(** * The claims about the filter *)

(** C1, as amended.  When the inspected text holds a marker, the commit is
    kept exactly when the marker's flag name is a member of the enabled set
    built at construction; the members of that set are the names that start
    with [FEATURE_] and are the name of an environment variable whose value
    is exactly the string [true].  A commit whose flag's variable has any
    other value or is unset is discarded.  The inspected text is
    [commit.message] in the two TypeScript renderings and the text chosen by
    the override logic in the compiled file. *)
Theorem marker_kept_iff_enabled (env : gmap jsstring jsstring) commit name :
  let this := constructor env in
  let enabled :=
    code_units "FEATURE_" `prefix_of` name ∧
    env !! name = Some (code_units "true") in
  (name ∈ enabledFlags this ↔ enabled) ∧
  (flagMatch (message commit) = Some name →
   (Src.shouldIncludeCommit this commit = true ↔ enabled) ∧
   (Backfill.shouldIncludeCommit this commit = true ↔ enabled) ∧
   (env !! name ≠ Some (code_units "true") →
    Src.shouldIncludeCommit this commit = false)) ∧
  (flagMatch (Build.messageToCheck commit) = Some name →
   (Build.shouldIncludeCommit this commit = true ↔ enabled) ∧
   (env !! name ≠ Some (code_units "true") →
    Build.shouldIncludeCommit this commit = false)).
Proof.
  intros this enabled.
  assert (name ∈ enabledFlags this ↔ enabled) as Hen
    by apply elem_of_enabledFlags.
  split; [done|]. split.
  - intros Hm.
    rewrite Src_shouldIncludeCommit_eq, Backfill_shouldIncludeCommit_eq.
    rewrite (decide_on_Some this _ _ Hm), Hen.
    split; [done|]. split; [done|].
    intros Hv. apply not_true_iff_false.
    rewrite (decide_on_Some this _ _ Hm), Hen. by intros [_ ?].
  - intros Hm. rewrite Build_shouldIncludeCommit_eq.
    rewrite (decide_on_Some this _ _ Hm), Hen.
    split; [done|].
    intros Hv. apply not_true_iff_false.
    rewrite (decide_on_Some this _ _ Hm), Hen. by intros [_ ?].
Qed.

Lemma marker_kept_iff_enabled_witness :
  Src.shouldIncludeCommit (constructor env_x) commit_B = true.
Proof.
  destruct (marker_kept_iff_enabled env_x commit_B (code_units "FEATURE_X"))
    as (_ & Hsrc & _).
  apply Hsrc; [reflexivity|].
  split; [by exists (code_units "X") | reflexivity].
Defined.

(** C1, counterexample.  In the environment of the repository's test
    "should only load FEATURE_* environment variables" the variable
    [NOT_A_FEATURE] has the value [true], the marker of the commit names it,
    and the commit is discarded: being the name of a variable whose value is
    [true] does not suffice. *)
Lemma not_a_feature_discarded :
  flagMatch (message commit_not_a_feature) = Some (code_units "NOT_A_FEATURE") ∧
  env_not_a_feature !! code_units "NOT_A_FEATURE" = Some (code_units "true") ∧
  Src.shouldIncludeCommit (constructor env_not_a_feature) commit_not_a_feature
  = false.
Proof. repeat split; vm_compute; reflexivity. Qed.

(** Where the pattern finds no flag in the inspected text, the commit is
    kept whatever the flags are, and [preconfigure] leaves a list of such
    commits as it was. *)
Lemma no_marker_no_change this s c rl (h : heap) props path r elems named :
  h !! c = Some (h_record props) →
  (path, v_object r) ∈ props →
  h !! r = Some (h_commits elems named) →
  (Forall (λ commit, ¬ has_marker (message commit)) elems →
   Forall (λ commit, Src.shouldIncludeCommit this commit = true) elems ∧
   (Src.preconfigure this s c rl h).1 !! r = Some (h_commits elems named)) ∧
  (Forall (λ commit, ¬ has_marker (Build.messageToCheck commit)) elems →
   Forall (λ commit, Build.shouldIncludeCommit this commit = true) elems ∧
   (Build.preconfigure this s c rl h).1 !! r = Some (h_commits elems named)).
Proof.
  intros Hc Hin Hr. split; intros Hfree.
  - assert (Forall (λ commit, Src.shouldIncludeCommit this commit = true) elems)
      as Hkeep.
    { eapply Forall_impl; [exact Hfree|]. intros commit Hn.
      rewrite Src_shouldIncludeCommit_eq. by apply no_marker_kept. }
    split; [done|]. unfold Src.preconfigure.
    rewrite (in_place_array _ s c rl h props path r elems named Hc Hin Hr).
    by rewrite filter_all.
  - assert (Forall (λ commit, Build.shouldIncludeCommit this commit = true) elems)
      as Hkeep.
    { eapply Forall_impl; [exact Hfree|]. intros commit Hn.
      rewrite Build_shouldIncludeCommit_eq. by apply no_marker_kept. }
    split; [done|]. unfold Build.preconfigure.
    rewrite (in_place_array _ s c rl h props path r elems named Hc Hin Hr).
    by rewrite filter_all.
Qed.

Lemma no_marker_no_change_witness :
  (Src.preconfigure (constructor env_x) 1 2 3 (one_path [commit_A])).1
    !! 4%positive
  = Some (h_commits [commit_A] []).
Proof.
  refine (proj2 (proj1 (no_marker_no_change (constructor env_x)
                  1%positive 2%positive 3%positive (one_path [commit_A])
                  [(code_units ".", v_object 4%positive)] (code_units ".")
                  4%positive [commit_A] [] _ _ _) _)).
  - reflexivity.
  - apply list_elem_of_here.
  - reflexivity.
  - constructor; [|constructor]. apply flagMatch_None. reflexivity.
Defined.

(** The word after the empty label of [commit_nameless] is the name of no
    flag that can be enabled. *)
Lemma nameless_never_enabled (env : gmap jsstring jsstring) :
  decide_on (constructor env) (message commit_nameless) = false.
Proof.
  apply not_true_iff_false.
  rewrite (decide_on_Some _ _ (code_units "Signed")) by reflexivity.
  rewrite elem_of_enabledFlags. intros [[k Hk] _]. vm_compute in Hk.
  discriminate.
Qed.

(** C2, at the failing input.  Neither commit of the list has a marker
    line: one has no label at all, the other a label with no flag name on
    its line.  Filtering the list does not return it unchanged: whatever
    the environment is, [preconfigure] discards the second commit, because
    the pattern reads the first word of the next line as the flag name. *)
Theorem marker_free_list_changed :
  line_marker (message commit_A) = None ∧
  line_marker (message commit_nameless) = None ∧
  ∀ env : gmap jsstring jsstring,
    (Src.preconfigure (constructor env) 1 2 3
       (one_path [commit_A; commit_nameless])).1 !! 4%positive
    = Some (h_commits [commit_A] []) ∧
    (Build.preconfigure (constructor env) 1 2 3
       (one_path [commit_A; commit_nameless])).1 !! 4%positive
    = Some (h_commits [commit_A] []).
Proof.
  split; [reflexivity|]. split; [reflexivity|]. intros env.
  pose proof (nameless_never_enabled env) as Hdrop.
  assert (decide_on (constructor env) (message commit_A) = true) as Hkeep.
  { apply no_marker_kept, flagMatch_None. reflexivity. }
  split.
  - unfold Src.preconfigure.
    rewrite (in_place_array _ 1%positive 2%positive 3%positive _
               [(code_units ".", v_object 4%positive)] (code_units ".")
               4%positive [commit_A; commit_nameless] []);
      [|reflexivity|apply list_elem_of_here|reflexivity].
    cbn [List.filter]. rewrite !Src_shouldIncludeCommit_eq.
    by rewrite Hkeep, Hdrop.
  - unfold Build.preconfigure.
    rewrite (in_place_array _ 1%positive 2%positive 3%positive _
               [(code_units ".", v_object 4%positive)] (code_units ".")
               4%positive [commit_A; commit_nameless] []);
      [|reflexivity|apply list_elem_of_here|reflexivity].
    cbn [List.filter]. rewrite !Build_shouldIncludeCommit_eq.
    change (Build.messageToCheck commit_A) with (message commit_A).
    change (Build.messageToCheck commit_nameless)
      with (message commit_nameless).
    by rewrite Hkeep, Hdrop.
Qed.

(** C3, at the failing input: the second commit of the repository's test
    "should respect feature flags in PR commit overrides".  The compiled
    file reads the override text and discards the commit;
    [src/plugins/feature-flags.ts] reads [commit.message], which holds no
    marker, and keeps it, so that both commits of the test survive where the
    test expects one. *)
Theorem override_ignored_by_source :
  Build.messageToCheck commit_override_disabled
  = code_units "feat: override with disabled flag" ++ LF ++ LF
    ++ code_units "Feature-Flag: FEATURE_DISABLED" ∧
  Build.shouldIncludeCommit (constructor env_enabled) commit_override_disabled
  = false ∧
  Src.shouldIncludeCommit (constructor env_enabled) commit_override_disabled
  = true ∧
  (Build.preconfigure (constructor env_enabled) 1 2 3
     (one_path [commit_override_enabled; commit_override_disabled])).1
    !! 4%positive
  = Some (h_commits [commit_override_enabled] []) ∧
  (Src.preconfigure (constructor env_enabled) 1 2 3
     (one_path [commit_override_enabled; commit_override_disabled])).1
    !! 4%positive
  = Some (h_commits [commit_override_enabled; commit_override_disabled] []).
Proof. repeat split; vm_compute; reflexivity. Qed.

(** C4.  For every path, what [preconfigure] leaves in the array of the path
    is the list of the commits that [shouldIncludeCommit] accepts, in the
    order of the input: a sublist of the input. *)
Theorem survivors_keep_order this s c rl (h : heap) props path r elems
    named :
  h !! c = Some (h_record props) →
  (path, v_object r) ∈ props →
  h !! r = Some (h_commits elems named) →
  ((Src.preconfigure this s c rl h).1 !! r
   = Some (h_commits (List.filter (Src.shouldIncludeCommit this) elems)
                     named) ∧
   List.filter (Src.shouldIncludeCommit this) elems `sublist_of` elems) ∧
  ((Build.preconfigure this s c rl h).1 !! r
   = Some (h_commits (List.filter (Build.shouldIncludeCommit this) elems)
                     named) ∧
   List.filter (Build.shouldIncludeCommit this) elems `sublist_of` elems).
Proof.
  intros Hc Hin Hr. split; (split; [|apply filter_sublist]).
  - by apply in_place_array with props path.
  - by apply in_place_array with props path.
Qed.

Lemma survivors_keep_order_witness :
  [commit_A; commit_B] `sublist_of` [commit_A; commit_B; commit_C].
Proof.
  refine (proj2 (proj1 (survivors_keep_order (constructor env_x)
                  1%positive 2%positive 3%positive
                  (one_path [commit_A; commit_B; commit_C])
                  [(code_units ".", v_object 4%positive)] (code_units ".")
                  4%positive [commit_A; commit_B; commit_C] [] _ _ _))).
  - reflexivity.
  - apply list_elem_of_here.
  - reflexivity.
Defined.

(** C5.  Running [preconfigure] on the heap that a first run has left gives
    that heap again, and the same result, for every set of flags and every
    heap. *)
Theorem filtering_twice this s c rl (h : heap) :
  Src.preconfigure this s c rl (Src.preconfigure this s c rl h).1
  = Src.preconfigure this s c rl h ∧
  Build.preconfigure this s c rl (Build.preconfigure this s c rl h).1
  = Build.preconfigure this s c rl h.
Proof.
  split; (apply injective_projections; [apply in_place_idempotent | done]).
Qed.

(** C6, as amended.  With [FEATURE_X=true] as the whole environment and the
    commits A (no marker), B (whose marker names [FEATURE_X], the variable
    in full) and C (whose marker names [FEATURE_Y]), [preconfigure] leaves
    A and B, in that order. *)
Theorem scenario_feature_x :
  (Src.preconfigure (constructor env_x) 1 2 3
     (one_path [commit_A; commit_B; commit_C])).1 !! 4%positive
  = Some (h_commits [commit_A; commit_B] []) ∧
  (Build.preconfigure (constructor env_x) 1 2 3
     (one_path [commit_A; commit_B; commit_C])).1 !! 4%positive
  = Some (h_commits [commit_A; commit_B] []).
Proof. split; vm_compute; reflexivity. Qed.

(** C6, counterexample.  The scenario with the markers as the claim writes
    them, [X] and [Y]: the pattern reads the names [X] and [Y], the enabled
    set holds [FEATURE_X], and [preconfigure] leaves A alone. *)
Lemma scenario_bare_names :
  flagMatch (message commit_bare_X) = Some (code_units "X") ∧
  flagMatch (message commit_bare_Y) = Some (code_units "Y") ∧
  elements (enabledFlags (constructor env_x)) = [code_units "FEATURE_X"] ∧
  (Src.preconfigure (constructor env_x) 1 2 3
     (one_path [commit_A; commit_bare_X; commit_bare_Y])).1 !! 4%positive
  = Some (h_commits [commit_A] []) ∧
  (Build.preconfigure (constructor env_x) 1 2 3
     (one_path [commit_A; commit_bare_X; commit_bare_Y])).1 !! 4%positive
  = Some (h_commits [commit_A] []).
Proof. repeat split; vm_compute; reflexivity. Qed.

(** C7, at the failing input.  The label stands on a line of its own with
    no flag name, so the text holds no marker line; the pattern skips the
    line break, takes the first word of the next line as the flag name, and
    the commit is discarded whatever the environment is. *)
Theorem nameless_line_discarded :
  message commit_nameless
  = code_units "fix: y" ++ LF ++ LF ++ label ++ LF
    ++ code_units "Signed-off-by: Bob" ∧
  line_marker (message commit_nameless) = None ∧
  flagMatch (message commit_nameless) = Some (code_units "Signed") ∧
  ∀ env : gmap jsstring jsstring,
    Src.shouldIncludeCommit (constructor env) commit_nameless = false ∧
    Build.shouldIncludeCommit (constructor env) commit_nameless = false ∧
    Backfill.shouldIncludeCommit (constructor env) commit_nameless = false.
Proof.
  split; [reflexivity|]. split; [reflexivity|]. split; [reflexivity|].
  intros env.
  assert (decide_on (constructor env) (message commit_nameless) = false) as H.
  { apply not_true_iff_false.
    rewrite (decide_on_Some _ _ (code_units "Signed")) by reflexivity.
    rewrite elem_of_enabledFlags. intros [[k Hk] _]. vm_compute in Hk.
    discriminate. }
  by repeat split.
Qed.






(** C10.  The read-index/write-index loop followed by the truncation leaves
    the list that [Array.prototype.filter] produces from the same input with
    the same predicate. *)
Theorem compaction_is_filter this commits :
  filter_in_place (Src.shouldIncludeCommit this) commits
  = List.filter (Backfill.shouldIncludeCommit this) commits ∧
  filter_in_place (Build.shouldIncludeCommit this) commits
  = List.filter (Build.shouldIncludeCommit this) commits.
Proof. split; apply filter_in_place_filter. Qed.


(** * Further properties of the constructor *)

Lemma load_entry_previously this key value flag :
  flag ∈ previouslyEnabledFlags (load_entry this (key, value)) ↔
  flag ∈ previouslyEnabledFlags this ∨
  (flag = key ∧ code_units "FEATURE_" `prefix_of` key ∧
   value = code_units "false").
Proof.
  unfold load_entry. rewrite <- startsWith_prefix.
  destruct (startsWith key (code_units "FEATURE_")).
  - destruct (bool_decide_reflect (value = code_units "true")) as [Hv|Hv].
    + subst value.
      destruct (bool_decide_reflect (code_units "true" = code_units "false"))
        as [Hf|Hf]; [by vm_compute in Hf|].
      simpl. split; [by left|]. by intros [?|(_ & _ & ?)].
    + destruct (bool_decide_reflect (value = code_units "false")) as [Hf|Hf];
        simpl.
      * rewrite elem_of_union, elem_of_singleton. tauto.
      * split; [by left|]. by intros [?|(_ & _ & ?)].
  - split; [by left|]. by intros [?|(_ & ? & _)].
Qed.

Lemma foldl_load_entry_previously l this flag :
  flag ∈ previouslyEnabledFlags (foldl load_entry this l) ↔
  flag ∈ previouslyEnabledFlags this ∨
  (code_units "FEATURE_" `prefix_of` flag ∧ (flag, code_units "false") ∈ l).
Proof.
  revert this. induction l as [|[key value] l IH]; intros this; cbn [foldl].
  - split; [by left|]. intros [?|[_ H]]; [done|]. by apply elem_of_nil in H.
  - rewrite IH, load_entry_previously, elem_of_cons. split.
    + intros [[H|(-> & Hp & ->)]|[Hp H]]; [by left | right | right]; auto.
    + intros [H|[Hp [[= -> ->]|H]]]; [left; by left | left; right | right];
        auto.
Qed.

Lemma elem_of_previouslyEnabledFlags (env : gmap jsstring jsstring) flag :
  flag ∈ previouslyEnabledFlags (constructor env) ↔
  code_units "FEATURE_" `prefix_of` flag ∧
  env !! flag = Some (code_units "false").
Proof.
  unfold constructor.
  rewrite foldl_load_entry_previously, elem_of_map_to_list.
  simpl. rewrite elem_of_empty. tauto.
Qed.

Lemma filter_true {A} (f : A → bool) l :
  Forall (λ x, f x = true) l → List.filter f l = l.
Proof. induction 1 as [|x l Hx _ IH]; simpl; [done|]. by rewrite Hx, IH. Qed.

Lemma enabled_not_disabled (env : gmap jsstring jsstring) flag :
  flag ∈ enabledFlags (constructor env) →
  flag ∈ previouslyEnabledFlags (constructor env) → False.
Proof.
  rewrite elem_of_enabledFlags, elem_of_previouslyEnabledFlags.
  intros [_ Ht] [_ Hf]. rewrite Ht in Hf. by vm_compute in Hf.
Qed.

(** The second set of the constructor holds the names that start with
    [FEATURE_] and whose variable has the value [false], and no name is in
    both sets. *)
Theorem disabled_flags_recorded (env : gmap jsstring jsstring) :
  (∀ flag,
     flag ∈ previouslyEnabledFlags (constructor env) ↔
     code_units "FEATURE_" `prefix_of` flag ∧
     env !! flag = Some (code_units "false")) ∧
  enabledFlags (constructor env) ## previouslyEnabledFlags (constructor env).
Proof.
  split; [apply elem_of_previouslyEnabledFlags|].
  apply elem_of_disjoint. intros flag. apply enabled_not_disabled.
Qed.

(** No enabled flag is ever held back as enabled before.  Whatever the
    order in which the set of enabled flags yields its members, the flags
    that [preconfigure] of the rendering with history takes as newly
    enabled are all of them, in that order. *)
Theorem every_enabled_flag_is_new (env : gmap jsstring jsstring)
    insertion_order :
  (∀ flag, flag ∈ insertion_order → flag ∈ enabledFlags (constructor env)) →
  Backfill.newlyEnabledFlags insertion_order (constructor env)
  = insertion_order.
Proof.
  intros Hall. unfold Backfill.newlyEnabledFlags.
  apply filter_true, Forall_forall.
  intros flag Hin%Hall. apply negb_true_iff, not_true_iff_false.
  rewrite has_true. intros Hprev.
  destruct (enabled_not_disabled env flag Hin Hprev).
Qed.

Lemma every_enabled_flag_is_new_witness :
  Backfill.newlyEnabledFlags [code_units "FEATURE_X"] (constructor env_x)
  = [code_units "FEATURE_X"].
Proof.
  apply (every_enabled_flag_is_new env_x [code_units "FEATURE_X"]).
  intros flag ->%list_elem_of_singleton.
  apply elem_of_enabledFlags. split; [by eexists | reflexivity].
Defined.

Lemma decide_on_mono this this' text :
  enabledFlags this ⊆ enabledFlags this' →
  decide_on this text = true → decide_on this' text = true.
Proof.
  intros Hsub. unfold decide_on. destruct (flagMatch text) as [flag|]; [|done].
  rewrite !has_true. apply Hsub.
Qed.

Lemma enabledFlags_mono (env env' : gmap jsstring jsstring) :
  env ⊆ env' → enabledFlags (constructor env) ⊆ enabledFlags (constructor env').
Proof.
  intros Hsub flag. rewrite !elem_of_enabledFlags. intros [Hp Hv].
  split; [done|]. by apply (lookup_weaken env env').
Qed.

(** An environment with more variables keeps every commit that the smaller
    one keeps: adding a variable never drops a commit. *)
Theorem more_variables_keep_more (env env' : gmap jsstring jsstring) commit :
  env ⊆ env' →
  (Src.shouldIncludeCommit (constructor env) commit = true →
   Src.shouldIncludeCommit (constructor env') commit = true) ∧
  (Build.shouldIncludeCommit (constructor env) commit = true →
   Build.shouldIncludeCommit (constructor env') commit = true) ∧
  (Backfill.shouldIncludeCommit (constructor env) commit = true →
   Backfill.shouldIncludeCommit (constructor env') commit = true).
Proof.
  intros Hsub%enabledFlags_mono.
  rewrite ?Src_shouldIncludeCommit_eq, ?Build_shouldIncludeCommit_eq,
    ?Backfill_shouldIncludeCommit_eq.
  repeat split; by apply decide_on_mono.
Qed.

Lemma more_variables_keep_more_witness :
  Src.shouldIncludeCommit (constructor env_x) commit_A = true.
Proof.
  refine (proj1 (more_variables_keep_more ∅ env_x commit_A _) _).
  - apply map_empty_subseteq.
  - reflexivity.
Defined.

(** A marker line is a match of the pattern: the white space that a line
    allows between the label and the name is white space to [\s] too. *)
Lemma line_marker_has_marker s : is_Some (line_marker s) → has_marker s.
Proof.
  induction s as [|c s IH]; cbn [line_marker];
    destruct (line_marker_here _) as [name|] eqn:Hhere.
  - intros _. revert Hhere. by vm_compute.
  - by intros [? ?].
  - intros _. exists [], (c :: s). split; [done|].
    unfold line_marker_here in Hhere.
    destruct (match_literal label (c :: s)) as [rest|] eqn:Hl; [|done].
    apply match_literal_Some in Hl as (l & -> & Hl).
    destruct (drop_while is_blank rest) as [|w tail] eqn:Hdrop; [done|].
    simpl in Hhere. destruct (is_word w) eqn:Hw; [|done].
    exists l, (take_while is_blank rest), w, tail.
    split; [by rewrite <- Hdrop, take_drop_while|]. split; [done|].
    split; [|done].
    eapply Forall_impl; [apply take_while_Forall|].
    intros x Hx. unfold is_blank in Hx. by apply andb_true_iff in Hx as [? _].
  - intros (pre & s' & -> & Hm)%IH. by exists (c :: pre), s'.
Qed.

(** When no variable that starts with [FEATURE_] has the value [true], as in
    an empty environment, the enabled set is empty and the filter keeps
    exactly the commits in whose inspected text the pattern finds no flag
    name: no label followed, after white space that may hold line breaks,
    by a word character.  So every commit with a marker line is
    discarded. *)
Theorem nothing_enabled_keeps_unmatched (env : gmap jsstring jsstring) commit :
  (∀ key, env !! key = Some (code_units "true") →
          ¬ code_units "FEATURE_" `prefix_of` key) →
  enabledFlags (constructor env) = ∅ ∧
  (Src.shouldIncludeCommit (constructor env) commit = true ↔
   ¬ has_marker (message commit)) ∧
  (Build.shouldIncludeCommit (constructor env) commit = true ↔
   ¬ has_marker (Build.messageToCheck commit)) ∧
  (is_Some (line_marker (message commit)) →
   Src.shouldIncludeCommit (constructor env) commit = false) ∧
  (is_Some (line_marker (Build.messageToCheck commit)) →
   Build.shouldIncludeCommit (constructor env) commit = false).
Proof.
  intros Hnone.
  assert (∀ text, decide_on (constructor env) text = true ↔ ¬ has_marker text)
    as Hd.
  { intros text. rewrite <- flagMatch_None. unfold decide_on.
    destruct (flagMatch text) as [flag|] eqn:Hm; [|done].
    rewrite has_true, elem_of_enabledFlags. split; [|done].
    intros [Hp Hv]. by destruct (Hnone flag Hv). }
  assert (∀ text, is_Some (line_marker text) →
                  decide_on (constructor env) text = false) as Hl.
  { intros text Hm%line_marker_has_marker. apply not_true_iff_false.
    rewrite Hd. by intros []. }
  split.
  - apply set_eq. intros flag. rewrite elem_of_enabledFlags, elem_of_empty.
    split; [|done]. intros [Hp Hv]. by apply (Hnone flag Hv).
  - rewrite Src_shouldIncludeCommit_eq, Build_shouldIncludeCommit_eq.
    split; [apply Hd|]. split; [apply Hd|]. split; apply Hl.
Qed.

Lemma nothing_enabled_keeps_unmatched_witness :
  Src.shouldIncludeCommit (constructor ∅) commit_B = false.
Proof.
  refine (proj1 (proj2 (proj2 (proj2
            (nothing_enabled_keeps_unmatched ∅ commit_B _)))) _).
  - intros key Hkey. by rewrite lookup_empty in Hkey.
  - by eexists.
Defined.

(** Setting one variable changes the enabled set at that name only: the
    name is added when it starts with [FEATURE_] and the new value is
    [true], and removed otherwise; unsetting the variable removes it. *)
Theorem setting_a_variable (env : gmap jsstring jsstring) key value :
  enabledFlags (constructor (<[key := value]> env))
  = (if bool_decide (code_units "FEATURE_" `prefix_of` key ∧
                     value = code_units "true")
     then {[ key ]} ∪ enabledFlags (constructor env)
     else enabledFlags (constructor env) ∖ {[ key ]}) ∧
  enabledFlags (constructor (delete key env))
  = enabledFlags (constructor env) ∖ {[ key ]}.
Proof.
  split; apply set_eq; intros flag.
  - case_bool_decide as Hc.
    + rewrite elem_of_union, elem_of_singleton, !elem_of_enabledFlags.
      destruct Hc as [Hp ->].
      destruct (decide (key = flag)) as [->|Hne].
      * rewrite lookup_insert_eq. tauto.
      * rewrite lookup_insert_ne by done. split; [tauto|].
        intros [->|?]; [done | tauto].
    + rewrite elem_of_difference, elem_of_singleton, !elem_of_enabledFlags.
      destruct (decide (key = flag)) as [->|Hne].
      * rewrite lookup_insert_eq. split; [|tauto].
        intros [Hp [= ->]]. tauto.
      * rewrite lookup_insert_ne by done. split; [|tauto].
        intros H. split; [done|]. by intros ->.
  - rewrite elem_of_difference, elem_of_singleton, !elem_of_enabledFlags.
    destruct (decide (key = flag)) as [->|Hne].
    + rewrite lookup_delete_eq. split; [by intros [_ ?] | tauto].
    + rewrite lookup_delete_ne by done. split; [|tauto].
      intros H. split; [done|]. by intros ->.
Qed.

(** * Further properties of the filter *)

Lemma compact_bounds keep n : ∀ readIndex writeIndex commits,
  (writeIndex ≤ readIndex)%nat →
  (length commits ≤ readIndex + n)%nat →
  (compact keep n readIndex writeIndex commits).1
  = (writeIndex + length (List.filter keep (drop readIndex commits)))%nat ∧
  length (compact keep n readIndex writeIndex commits).2 = length commits.
Proof.
  induction n as [|n IH]; intros r w cs Hw Hlen; simpl.
  - rewrite drop_ge by lia. simpl. lia.
  - destruct (cs !! r) as [c|] eqn:Hr; simpl.
    + pose proof (lookup_lt_Some _ _ _ Hr) as Hlt.
      rewrite (drop_S _ _ _ Hr). simpl.
      destruct (keep c) eqn:Hk.
      * destruct (IH (S r) (S w) (<[w := c]> cs)) as [H1 H2];
          [lia | rewrite length_insert; lia |].
        rewrite H1, H2, drop_insert_lt, length_insert by lia. simpl. lia.
      * destruct (IH (S r) w cs) as [H1 H2]; [lia | lia |].
        rewrite H1, H2. lia.
    + apply lookup_ge_None in Hr. rewrite drop_ge by lia. simpl. lia.
Qed.

Lemma filter_length_le {A} (f : A → bool) l :
  (length (List.filter f l) ≤ length l)%nat.
Proof.
  induction l as [|x l IH]; simpl; [lia|]. destruct (f x); simpl; lia.
Qed.

(** The compaction loop stays inside the array: it never changes the length
    of the array, and the write index it ends with is the number of commits
    kept, at most the length, so that [commits.length = writeIndex] only ever
    cuts the array. *)
Theorem compaction_within_bounds keep commits :
  let res := compact keep (length commits) 0 0 commits in
  res.1 = length (List.filter keep commits) ∧
  (res.1 ≤ length commits)%nat ∧
  length res.2 = length commits ∧
  length (filter_in_place keep commits) = res.1.
Proof.
  intros res.
  destruct (compact_bounds keep (length commits) 0 0 commits) as [H1 H2];
    [lia | lia |].
  fold res in H1, H2. rewrite drop_0 in H1. simpl in H1.
  split; [done|]. split; [rewrite H1; apply filter_length_le|].
  split; [done|]. by rewrite filter_in_place_filter.
Qed.

Lemma drop_while_head_false f s c rest :
  drop_while f s = c :: rest → f c = false.
Proof.
  induction s as [|x s IH]; simpl; [done|].
  destruct (f x) eqn:E; [done|]. by intros [= <- <-].
Qed.

Lemma match_here_tail s name :
  match_here s = Some name →
  ∃ l sp rest, s = l ++ sp ++ name ++ rest ∧ same_letters label l ∧
               Forall (λ x, is_space x = true) sp ∧
               match rest with c :: _ => is_word c = false | [] => True end.
Proof.
  unfold match_here.
  destruct (match_literal label s) as [after|] eqn:Hl; [|done].
  apply match_literal_Some in Hl as (l & -> & Hl).
  destruct (take_while is_word (drop_while is_space after)) as [|c w] eqn:Hw;
    [done|].
  intros [= <-].
  exists l, (take_while is_space after),
         (drop_while is_word (drop_while is_space after)).
  split; [by rewrite <- Hw, !take_drop_while|].
  split; [done|]. split; [apply take_while_Forall|].
  destruct (drop_while is_word (drop_while is_space after)) as [|x r] eqn:E;
    [done|]. by apply drop_while_head_false in E.
Qed.

(** The marker that decides is the first one in the text: the name returned
    is the longest run of word characters after the leftmost label that has
    a name, and no marker starts before it. *)
Theorem first_marker_decides s name :
  flagMatch s = Some name →
  name ≠ [] ∧ Forall (λ x, is_word x = true) name ∧
  ∃ pre l sp rest,
    s = pre ++ l ++ sp ++ name ++ rest ∧ same_letters label l ∧
    Forall (λ x, is_space x = true) sp ∧
    match rest with c :: _ => is_word c = false | [] => True end ∧
    ∀ p1 p2, pre = p1 ++ p2 → p2 ≠ [] →
             ¬ marker_at (p2 ++ l ++ sp ++ name ++ rest).
Proof.
  induction s as [|c s IH]; cbn [flagMatch].
  - destruct (match_here []) as [n|] eqn:Hh; [|done].
    intros [= ->]. destruct (match_here_Some _ _ Hh) as (Hne & Hw & _).
    split; [done|]. split; [done|].
    destruct (match_here_tail _ _ Hh) as (l & sp & rest & Hs & Hl & Hsp & Ht).
    exists [], l, sp, rest.
    split; [done|]. split; [done|]. split; [done|]. split; [done|].
    intros p1 p2 Hp. symmetry in Hp. by apply app_eq_nil in Hp as [_ ->].
  - destruct (match_here (c :: s)) as [n|] eqn:Hh.
    + intros [= ->]. destruct (match_here_Some _ _ Hh) as (Hne & Hw & _).
      split; [done|]. split; [done|].
      destruct (match_here_tail _ _ Hh) as (l & sp & rest & Hs & Hl & Hsp & Ht).
      exists [], l, sp, rest.
      split; [done|]. split; [done|]. split; [done|]. split; [done|].
      intros p1 p2 Hp. symmetry in Hp. by apply app_eq_nil in Hp as [_ ->].
    + intros Hm. destruct (IH Hm) as (Hne & Hw & pre & l & sp & rest & -> & Hl
                                       & Hsp & Ht & Hfirst).
      split; [done|]. split; [done|].
      exists (c :: pre), l, sp, rest.
      split; [done|]. split; [done|]. split; [done|]. split; [done|].
      intros p1 p2 Hp Hp2. destruct p1 as [|c' p1].
      * simpl in Hp. subst p2. intros Hat%match_here_is_Some.
        simpl in Hat. rewrite Hh in Hat. by destruct Hat.
      * injection Hp as <- ->. by apply (Hfirst p1 p2).
Qed.

Lemma first_marker_decides_witness :
  code_units "FEATURE_X" ≠ [] ∧
  Forall (λ x, is_word x = true) (code_units "FEATURE_X").
Proof.
  destruct (first_marker_decides (message commit_B) (code_units "FEATURE_X")
              eq_refl)
    as (Hne & Hword & _).
  by split.
Defined.

(** * Further properties of the override text *)

Lemma trim_trimmed s : trimmed (trim s).
Proof.
  unfold trim.
  set (u := drop_while is_space s).
  set (v := drop_while is_space (rev u)).
  assert (rev u = take_while is_space (rev u) ++ v) as Hu
    by (by rewrite take_drop_while).
  split.
  - intros c rest Hc.
    assert (u = rev v ++ rev (take_while is_space (rev u))) as Hu'
      by (by rewrite <- rev_app_distr, <- Hu, rev_involutive).
    rewrite Hc in Hu'.
    by apply (drop_while_head_false is_space s c _ Hu').
  - intros c front Hc.
    assert (v = c :: rev front) as Hv.
    { rewrite <- (rev_involutive v), Hc, rev_app_distr. done. }
    by apply (drop_while_head_false is_space (rev u) c _ Hv).
Qed.

Lemma trim_occurs s : occurs_in (trim s) s.
Proof.
  unfold trim.
  set (u := drop_while is_space s).
  set (v := drop_while is_space (rev u)).
  exists (take_while is_space s), (rev (take_while is_space (rev u))).
  rewrite <- rev_app_distr. unfold v. rewrite take_drop_while, rev_involutive.
  unfold u. by rewrite take_drop_while.
Qed.

Lemma upto_prefix sep s : ∃ rest, s = upto sep s ++ rest.
Proof.
  unfold upto. destruct (cut sep s) as [[b a]|] eqn:Hc.
  - exists (sep ++ a). by apply cut_Some.
  - exists []. by rewrite app_nil_r.
Qed.

Lemma upto_free sep s : sep ≠ [] → ¬ occurs_in sep (upto sep s).
Proof.
  intros Hsep. unfold upto. destruct (cut sep s) as [[b a]|] eqn:Hc.
  - intros (a0 & b0 & ->).
    pose proof (cut_Some _ _ _ _ Hc) as Hs.
    pose proof (cut_first _ _ _ _ Hc a0 (b0 ++ sep ++ a)) as Hlen.
    rewrite Hs, <- !app_assoc in Hlen. specialize (Hlen eq_refl).
    rewrite !length_app in Hlen.
    destruct sep; [done | simpl in Hlen; lia].
  - intros (a0 & b0 & Hs). by apply (cut_None _ _ Hc a0 b0).
Qed.

Lemma occurs_in_trans sep t s : occurs_in sep t → occurs_in t s → occurs_in sep s.
Proof.
  intros (a & b & ->) (a' & b' & ->). exists (a' ++ a), (b ++ b').
  by rewrite <- !app_assoc.
Qed.

Lemma occurs_in_prefix t rest : occurs_in t (t ++ rest).
Proof. by exists [], rest. Qed.

(** What [shouldIncludeCommit] of the compiled file inspects is the raw
    message or, taken from the body of the pull request, a text that is not
    empty, has no white space at either end and holds neither
    [BEGIN_COMMIT_OVERRIDE] nor [END_COMMIT_OVERRIDE]. *)
Theorem override_text_is_clean commit :
  Build.messageToCheck commit = message commit ∨
  ∃ pr, pullRequest commit = Some pr ∧
        Build.messageToCheck commit = Build.overrideMessage (body pr) ∧
        Build.messageToCheck commit ≠ [] ∧
        trimmed (Build.messageToCheck commit) ∧
        occurs_in (Build.messageToCheck commit) (body pr) ∧
        ¬ occurs_in Build.BEGIN_COMMIT_OVERRIDE (Build.messageToCheck commit) ∧
        ¬ occurs_in Build.END_COMMIT_OVERRIDE (Build.messageToCheck commit).
Proof.
  unfold Build.messageToCheck.
  destruct (pullRequest commit) as [pr|]; [|by left].
  destruct (Build.truthy (body pr)); [|by left].
  destruct (Build.truthy (Build.overrideMessage (body pr))) eqn:Ht; [|by left].
  right. exists pr. split; [done|]. split; [done|].
  split; [by destruct (Build.overrideMessage (body pr))|].
  rewrite overrideMessage_eq.
  set (inner := match cut Build.BEGIN_COMMIT_OVERRIDE (body pr) with
                | Some (_, after) => upto Build.BEGIN_COMMIT_OVERRIDE after
                | None => []
                end).
  assert (occurs_in inner (body pr)) as Hinner.
  { unfold inner.
    destruct (cut Build.BEGIN_COMMIT_OVERRIDE (body pr)) as [[b a]|] eqn:Hc.
    - apply cut_Some in Hc.
      destruct (upto_prefix Build.BEGIN_COMMIT_OVERRIDE a) as [rest Ha].
      exists (b ++ Build.BEGIN_COMMIT_OVERRIDE), rest.
      by rewrite Hc, Ha at 1; rewrite <- !app_assoc.
    - by exists [], (body pr). }
  assert (¬ occurs_in Build.BEGIN_COMMIT_OVERRIDE inner) as Hbegin.
  { unfold inner.
    destruct (cut Build.BEGIN_COMMIT_OVERRIDE (body pr)) as [[b a]|].
    - by apply upto_free.
    - intros (a0 & b0 & H). by destruct a0. }
  assert (occurs_in (upto Build.END_COMMIT_OVERRIDE inner) inner) as Hup.
  { destruct (upto_prefix Build.END_COMMIT_OVERRIDE inner) as [rest Hr].
    rewrite Hr at 2. apply occurs_in_prefix. }
  split; [apply trim_trimmed|]. split; [|split].
  - eapply occurs_in_trans; [apply trim_occurs|].
    by eapply occurs_in_trans.
  - intros H. apply Hbegin.
    eapply occurs_in_trans; [|exact Hup].
    eapply occurs_in_trans; [exact H | apply trim_occurs].
  - intros H. apply (upto_free Build.END_COMMIT_OVERRIDE inner); [done|].
    eapply occurs_in_trans; [exact H | apply trim_occurs].
Qed.

(** * Conventional-commit headers *)

Lemma drop_while_all f name tail :
  Forall (λ x, f x = true) name →
  match tail with c :: _ => f c = false | [] => True end →
  drop_while f (name ++ tail) = tail.
Proof.
  intros Hn Ht. rewrite drop_while_app by done.
  destruct tail as [|c tail]; [done|]. by apply drop_while_head.
Qed.

Lemma is_word_scope c : is_word c = true → is_scope_char c = true.
Proof. unfold is_scope_char. by intros ->. Qed.

Lemma header_with_colon ty rest :
  ty ≠ [] → Forall (λ x, is_word x = true) ty →
  extractCommitType (ty ++ [58] ++ rest) = Some ty ∧
  extractCommitScope (ty ++ [58] ++ rest) = None.
Proof.
  intros Hne Hty. unfold extractCommitType, extractCommitScope.
  rewrite take_while_app, drop_while_all by done.
  by destruct ty.
Qed.

Lemma header_with_scope ty sc rest :
  ty ≠ [] → Forall (λ x, is_word x = true) ty →
  sc ≠ [] → Forall (λ x, is_scope_char x = true) sc →
  extractCommitType (ty ++ [40] ++ sc ++ [41; 58] ++ rest) = Some ty ∧
  extractCommitScope (ty ++ [40] ++ sc ++ [41; 58] ++ rest) = Some sc.
Proof.
  intros Hne Hty Hsne Hsc. unfold extractCommitType, extractCommitScope.
  rewrite take_while_app, drop_while_all by done. simpl.
  rewrite take_while_app, drop_while_all by done.
  destruct ty; [done|]. by destruct sc.
Qed.

Lemma extractCommitType_inv message ty :
  extractCommitType message = Some ty →
  ty ≠ [] ∧ Forall (λ x, is_word x = true) ty ∧
  ((∃ rest, message = ty ++ [58] ++ rest) ∨
   (∃ sc rest, sc ≠ [] ∧ Forall (λ x, is_scope_char x = true) sc ∧
               message = ty ++ [40] ++ sc ++ [41; 58] ++ rest)).
Proof.
  unfold extractCommitType.
  pose proof (take_drop_while is_word message) as Hm.
  pose proof (take_while_Forall is_word message) as Hw.
  destruct (take_while is_word message) as [|t ty'] eqn:Ht; [done|].
  destruct (drop_while is_word message) as [|c rest] eqn:Hd; [done|].
  destruct (N.eqb_spec c 58) as [->|Hc].
  { intros [= <-]. split; [done|]. split; [done|]. left. by exists rest. }
  destruct (N.eqb_spec c 40) as [->|Hc']; [|done].
  pose proof (take_drop_while is_scope_char rest) as Hr.
  pose proof (take_while_Forall is_scope_char rest) as Hs.
  destruct (take_while is_scope_char rest) as [|s sc'] eqn:Hts; [done|].
  destruct (drop_while is_scope_char rest) as [|c1 [|c2 r]] eqn:Hds;
    [done | done |].
  destruct (N.eqb_spec c1 41) as [->|]; [|done].
  destruct (N.eqb_spec c2 58) as [->|]; [|done].
  intros [= <-]. split; [done|]. split; [done|]. right.
  exists (s :: sc'), r. split; [done|]. split; [done|].
  by rewrite <- Hm, <- Hr.
Qed.

Lemma extractCommitScope_inv message sc :
  extractCommitScope message = Some sc →
  sc ≠ [] ∧ Forall (λ x, is_scope_char x = true) sc ∧
  ∃ ty rest, ty ≠ [] ∧ Forall (λ x, is_word x = true) ty ∧
             message = ty ++ [40] ++ sc ++ [41; 58] ++ rest.
Proof.
  unfold extractCommitScope.
  pose proof (take_drop_while is_word message) as Hm.
  pose proof (take_while_Forall is_word message) as Hw.
  destruct (take_while is_word message) as [|t ty'] eqn:Ht; [done|].
  destruct (drop_while is_word message) as [|c rest] eqn:Hd; [done|].
  destruct (N.eqb_spec c 40) as [->|Hc']; [|done].
  pose proof (take_drop_while is_scope_char rest) as Hr.
  pose proof (take_while_Forall is_scope_char rest) as Hs.
  destruct (take_while is_scope_char rest) as [|s sc'] eqn:Hts; [done|].
  destruct (drop_while is_scope_char rest) as [|c1 [|c2 r]] eqn:Hds;
    [done | done |].
  destruct (N.eqb_spec c1 41) as [->|]; [|done].
  destruct (N.eqb_spec c2 58) as [->|]; [|done].
  intros [= <-]. split; [done|]. split; [done|].
  exists (t :: ty'), r. split; [done|]. split; [done|].
  by rewrite <- Hm, <- Hr.
Qed.

(** [extractCommitType] finds a type exactly in the messages that start
    with a run of word characters, the type, followed by [:] or by a scope
    in parentheses and [:].  Anything else between the type and the colon,
    such as the [!] of a breaking change, leaves the commit without a
    type. *)
Theorem extractCommitType_shape message ty :
  extractCommitType message = Some ty ↔
  ty ≠ [] ∧ Forall (λ x, is_word x = true) ty ∧
  ((∃ rest, message = ty ++ [58] ++ rest) ∨
   (∃ sc rest, sc ≠ [] ∧ Forall (λ x, is_scope_char x = true) sc ∧
               message = ty ++ [40] ++ sc ++ [41; 58] ++ rest)).
Proof.
  split; [apply extractCommitType_inv|].
  intros (Hne & Hty & [(rest & ->)|(sc & rest & Hsne & Hsc & ->)]).
  - by apply header_with_colon.
  - by apply header_with_scope.
Qed.

(** [extractCommitScope] finds a scope exactly in the messages of the form
    type, scope in parentheses, colon; then [extractCommitType] finds the
    type in front of it.  A commit with a scope always has a type. *)
Theorem extractCommitScope_shape message sc :
  extractCommitScope message = Some sc ↔
  sc ≠ [] ∧ Forall (λ x, is_scope_char x = true) sc ∧
  ∃ ty rest, ty ≠ [] ∧ Forall (λ x, is_word x = true) ty ∧
             message = ty ++ [40] ++ sc ++ [41; 58] ++ rest ∧
             extractCommitType message = Some ty.
Proof.
  split.
  - intros (Hsne & Hsc & ty & rest & Hne & Hty & ->)%extractCommitScope_inv.
    split; [done|]. split; [done|]. exists ty, rest.
    split; [done|]. split; [done|]. split; [done|].
    by apply header_with_scope.
  - intros (Hsne & Hsc & ty & rest & Hne & Hty & -> & _).
    by apply header_with_scope.
Qed.

(** * Historical commits *)

Lemma cut_absent sep s : (∀ a b, s ≠ a ++ sep ++ b) → cut sep s = None.
Proof.
  intros Hno. destruct (cut sep s) as [[b a]|] eqn:Hc; [|done].
  apply cut_Some in Hc. by destruct (Hno b a).
Qed.

Lemma split_cut sep s before after :
  sep ≠ [] → cut sep s = Some (before, after) →
  split sep s = before :: split sep after.
Proof.
  intros Hsep Hc. unfold split.
  pose proof (cut_length _ _ _ _ Hc) as Hlen.
  destruct (length s) as [|n] eqn:Hn.
  - destruct sep; [done | simpl in Hlen; lia].
  - cbn [split_upto]. rewrite Hc. f_equal.
    apply split_upto_enough; [done | | done].
    destruct sep; [done | simpl in Hlen; lia].
Qed.

Lemma split_whole sep s : cut sep s = None → split sep s = [s].
Proof. intros Hc. unfold split. destruct (length s); simpl; by rewrite Hc. Qed.

Lemma occurs_in_char c s : occurs_in [c] s ↔ c ∈ s.
Proof.
  split.
  - intros (a & b & ->). rewrite !elem_of_app, elem_of_cons. tauto.
  - intros (a & b & ->)%list_elem_of_split. by exists a, b.
Qed.

Lemma cut_before_free sep s before after :
  sep ≠ [] → cut sep s = Some (before, after) → ¬ occurs_in sep before.
Proof.
  intros Hsep Hc. pose proof (upto_free sep s Hsep) as H.
  unfold upto in H. by rewrite Hc in H.
Qed.

(** Every piece of [s.split(sep)] is a part of [s] in which [sep] does not
    occur. *)
Lemma split_pieces sep s piece :
  sep ≠ [] → piece ∈ split sep s →
  ¬ occurs_in sep piece ∧ occurs_in piece s.
Proof.
  intros Hsep. remember (length s) as n eqn:Hn.
  revert s Hn. induction (lt_wf n) as [n _ IH]. intros s -> Hin.
  destruct (cut sep s) as [[b a]|] eqn:Hc.
  - rewrite (split_cut _ _ _ _ Hsep Hc) in Hin.
    pose proof (cut_Some _ _ _ _ Hc) as Hs.
    pose proof (cut_length _ _ _ _ Hc) as Hlen.
    apply elem_of_cons in Hin as [->|Hin].
    + split; [by eapply cut_before_free|]. exists [], (sep ++ a). by rewrite Hs.
    + destruct (IH (length a)) with (s := a) as [H1 H2]; [|done|done|].
      { destruct sep; [done | simpl in Hlen; lia]. }
      split; [done|]. apply occurs_in_trans with a; [done|].
      exists (b ++ sep), []. by rewrite Hs, app_nil_r, <- app_assoc.
  - rewrite (split_whole _ _ Hc) in Hin. apply list_elem_of_singleton in Hin as ->.
    split; [|by exists [], []; rewrite app_nil_r].
    intros (a & b & Hs). by apply (cut_None _ _ Hc a b).
Qed.

Lemma split_pieces_char c s piece d :
  piece ∈ split [c] s → (c ∉ piece) ∧ (d ∉ s → d ∉ piece).
Proof.
  intros [Hfree Hocc]%split_pieces; [|done]. split.
  - by rewrite <- occurs_in_char.
  - intros Hd Hin. apply Hd. destruct Hocc as (a & b & ->).
    rewrite !elem_of_app. tauto.
Qed.

Lemma default_piece c s i d :
  (c ∉ default [] (split [c] s !! i)) ∧
  (d ∉ s → d ∉ default [] (split [c] s !! i)).
Proof.
  destruct (split [c] s !! i) as [piece|] eqn:Hi; simpl.
  - apply split_pieces_char. by apply list_elem_of_lookup_2 in Hi.
  - split; [|intros _]; apply not_elem_of_nil.
Qed.

Lemma parse_line_Some line commit :
  Historical.parse_line line = Some commit →
  ∃ id subject body,
    commit = Historical.historical id subject body ∧
    id ≠ [] ∧ subject ≠ [] ∧
    Forall (λ field, (124 ∉ field) ∧ (10 ∉ line → 10 ∉ field))
           [id; subject; body].
Proof.
  unfold Historical.parse_line.
  set (id := default [] (split [124] line !! 0%nat)).
  set (subject := default [] (split [124] line !! 1%nat)).
  set (body := default [] (split [124] line !! 2%nat)).
  intros H. exists id, subject, body.
  assert (id ≠ [] ∧ subject ≠ [] ∧
          commit = Historical.historical id subject body) as (? & ? & ?).
  { destruct id; [done|]. destruct subject; [done|]. by injection H as <-. }
  split; [done|]. split; [done|]. split; [done|].
  unfold id, subject, body.
  repeat (apply Forall_cons; split; [apply default_piece|]).
  constructor.
Qed.

(** Every commit that [findHistoricalCommits] of
    [src/plugins/feature-flags.ts] returns has a [sha] and a subject that are
    not empty and hold neither [|] nor a line feed; its message is the
    subject, or the subject, an empty line and a body of one line; type and
    scope are read from the subject; it has no files and is not breaking. *)
Theorem historical_commits_well_formed execSync flags commit :
  commit ∈ Historical.findHistoricalCommits execSync flags →
  ∃ id subject body,
    commit = Historical.historical id subject body ∧
    id ≠ [] ∧ subject ≠ [] ∧
    Forall (λ field, (124 ∉ field) ∧ (10 ∉ field)) [id; subject; body] ∧
    Historical.sha commit = id ∧
    Historical.bareMessage commit = subject ∧
    Historical.message commit
    = (if bool_decide (body = []) then subject
       else subject ++ [10; 10] ++ body) ∧
    Historical.type commit = extractCommitType subject ∧
    Historical.scope commit = extractCommitScope subject ∧
    Historical.files commit = [] ∧
    Historical.breaking commit = false.
Proof.
  unfold Historical.findHistoricalCommits.
  intros (flag & Hin & _)%list_elem_of_bind.
  unfold Historical.commits_of_flag in Hin.
  destruct (execSync (Historical.command flag)) as [output|];
    [|by apply elem_of_nil in Hin].
  destruct (trim output) as [|c0 t] eqn:Ht; [by apply elem_of_nil in Hin|].
  apply list_elem_of_omap in Hin as (line & Hline & Hparse).
  apply (split_pieces_char 10 _ _ 10) in Hline as [Hlf _].
  apply parse_line_Some in Hparse as (id & subject & body & -> & Hid & Hs & Hf).
  exists id, subject, body. split; [done|]. split; [done|]. split; [done|].
  split.
  { eapply Forall_impl; [exact Hf|]. intros field [H1 H2]. auto. }
  repeat split. simpl. unfold Historical.reconstruct.
  by destruct body.
Qed.

Lemma historical_commits_well_formed_witness :
  ∃ id : jsstring, id ≠ [] ∧ (124 ∉ id).
Proof.
  destruct (historical_commits_well_formed
              (λ _, Some (code_units "abc|feat: x|more|Al|al@x"))
              [code_units "FEATURE_X"]
              (Historical.historical (code_units "abc") (code_units "feat: x")
                                     (code_units "more")))
    as (id & subject & body & _ & Hid & _ & Hf & _).
  - apply list_elem_of_singleton. reflexivity.
  - exists id. split; [done|]. by inversion Hf as [|? ? [? _] _].
Defined.

Lemma drop_while_Forall f s : Forall (λ x, f x = true) s → drop_while f s = [].
Proof. induction 1 as [|c s Hc _ IH]; simpl; [done|]. by rewrite Hc. Qed.

Lemma trim_blank s : Forall (λ x, is_space x = true) s → trim s = [].
Proof. intros H. unfold trim. by rewrite (drop_while_Forall _ _ H). Qed.

(** When [execSync] throws or prints nothing but white space for every
    flag, [findHistoricalCommits] returns no commits, in both renderings:
    the failure stays inside. *)
Theorem no_output_no_commits execSync flags :
  (∀ flag, flag ∈ flags →
           execSync (Historical.command flag) = None ∨
           ∃ output, execSync (Historical.command flag) = Some output ∧
                     Forall (λ x, is_space x = true) output) →
  Historical.findHistoricalCommits execSync flags = [] ∧
  Historical.findHistoricalCommits_destructured execSync flags = [].
Proof.
  unfold Historical.findHistoricalCommits,
    Historical.findHistoricalCommits_destructured.
  induction flags as [|flag flags IH]; intros Hall; [done|].
  rewrite !bind_cons.
  destruct IH as [IH1 IH2].
  { intros f Hf. apply Hall. by right. }
  rewrite IH1, IH2, !app_nil_r.
  unfold Historical.commits_of_flag, Historical.commits_of_flag_destructured.
  destruct (Hall flag) as [->|(output & -> & Hblank)]; [by left | done |].
  by rewrite (trim_blank output Hblank).
Qed.

Lemma no_output_no_commits_witness :
  Historical.findHistoricalCommits (λ _, None) [code_units "FEATURE_X"] = [].
Proof.
  refine (proj1 (no_output_no_commits (λ _, None) [code_units "FEATURE_X"] _)).
  intros flag _. by left.
Defined.

Lemma cut_char c l rest : c ∉ l → cut [c] (l ++ c :: rest) = Some (l, rest).
Proof.
  intros Hc. apply cut_intro; [done|].
  intros a b Hab. destruct (decide (length l ≤ length a)%nat) as [|Hlt]; [done|].
  exfalso. apply Hc.
  assert ((l ++ c :: rest) !! length a = Some c) as Hl.
  { rewrite Hab, lookup_app_r by lia. by rewrite Nat.sub_diag. }
  rewrite lookup_app_l in Hl by lia. by apply list_elem_of_lookup_2 in Hl.
Qed.

Lemma cut_char_none c l : c ∉ l → cut [c] l = None.
Proof.
  intros Hc. apply cut_absent. intros a b ->. apply Hc.
  rewrite !elem_of_app, elem_of_cons. tauto.
Qed.

(** Splitting what [join] has put together gives the parts back, when no
    part holds the separator. *)
Lemma split_join c parts :
  parts ≠ [] → Forall (λ part, c ∉ part) parts →
  split [c] (join c parts) = parts.
Proof.
  intros Hne Hfree. induction Hfree as [|p ps Hp Hps IH]; [done|].
  destruct ps as [|q ps].
  - simpl. by rewrite split_whole by by apply cut_char_none.
  - change (join c (p :: q :: ps)) with (p ++ c :: join c (q :: ps)).
    rewrite (split_cut [c] _ p (join c (q :: ps))); [|done|by apply cut_char].
    by rewrite IH.
Qed.

Lemma join_free d c parts :
  d ≠ c → Forall (λ part, d ∉ part) parts → d ∉ join c parts.
Proof.
  intros Hdc Hfree. induction Hfree as [|p ps Hp Hps IH]; [apply not_elem_of_nil|].
  destruct ps as [|q ps]; [done|].
  change (join c (p :: q :: ps)) with (p ++ c :: join c (q :: ps)).
  rewrite elem_of_app, elem_of_cons. tauto.
Qed.

Lemma trim_padded x pad :
  x ≠ [] → trimmed x → Forall (λ c, is_space c = true) pad →
  trim (x ++ pad) = x.
Proof.
  intros Hne [Hhead Hlast] Hpad. unfold trim.
  destruct x as [|c x'] eqn:Hx; [done|]. rewrite <- Hx in *.
  assert (drop_while is_space (x ++ pad) = x ++ pad) as ->.
  { rewrite Hx. simpl. by rewrite (Hhead c x' Hx). }
  rewrite rev_app_distr, drop_while_app by by apply Forall_rev.
  destruct (rev x) as [|d r] eqn:Hr.
  - apply (f_equal (@rev N)) in Hr. rewrite rev_involutive in Hr. by subst.
  - assert (x = rev r ++ [d]) as Hxr.
    { by rewrite <- (rev_involutive x), Hr. }
    rewrite drop_while_head by by apply (Hlast d (rev r)).
    by rewrite <- Hr, rev_involutive.
Qed.

Lemma trimmed_intro c x d :
  is_space c = false → is_space d = false → trimmed ((c :: x) ++ [d]).
Proof.
  intros Hc Hd. split.
  - by intros c' rest [= <- _].
  - by intros c' front [_ <-]%app_inj_tail.
Qed.

Lemma plain_entry_fields entry :
  plain_entry entry →
  split [124] (record_line entry) = fields entry ∧ (10 ∉ record_line entry).
Proof.
  intros (Hf & _ & _). split.
  - apply split_join; [done|]. eapply Forall_impl; [exact Hf|]. by intros ? [? ?].
  - apply join_free; [done|]. eapply Forall_impl; [exact Hf|]. by intros ? [? ?].
Qed.

Lemma parse_plain_entry entry :
  plain_entry entry →
  Historical.parse_line (record_line entry) = Some (of_entry entry) ∧
  Historical.parse_line_destructured (record_line entry)
  = Some (of_entry entry).
Proof.
  intros Hp. destruct (plain_entry_fields entry Hp) as [Hs _].
  destruct Hp as (_ & Hh & Hsub).
  unfold Historical.parse_line, Historical.parse_line_destructured.
  rewrite Hs. simpl. unfold of_entry.
  destruct (hash entry); [done|]. by destruct (subject entry).
Qed.

Lemma parse_plain_entries entries :
  Forall plain_entry entries →
  omap Historical.parse_line (record_line <$> entries) = of_entry <$> entries ∧
  Historical.until_throw (record_line <$> entries) = of_entry <$> entries.
Proof.
  induction 1 as [|e es He _ [IH1 IH2]]; [done|].
  destruct (parse_plain_entry e He) as [H1 H2].
  split.
  - rewrite fmap_cons. cbn [omap list_omap]. by rewrite H1, IH1.
  - rewrite fmap_cons. cbn [Historical.until_throw]. by rewrite H2, IH2.
Qed.

(** Reading back records of one line.  Let [execSync] return, for a flag,
    a text of records [sha|subject|body|author|email], one on each line,
    followed by white space such as the final line feed, where no field
    holds [|] or a line feed, no [sha] or subject is empty, and the text of
    the records neither starts nor ends with white space.  Then
    [findHistoricalCommits] returns the commits of these records in order,
    with their hashes, subjects and bodies, in both renderings. *)
Theorem log_round_trip execSync flag entries pad :
  Forall plain_entry entries →
  trimmed (log_output entries) →
  Forall (λ c, is_space c = true) pad →
  execSync (Historical.command flag) = Some (log_output entries ++ pad) →
  Historical.findHistoricalCommits execSync [flag] = of_entry <$> entries ∧
  Historical.findHistoricalCommits_destructured execSync [flag]
  = of_entry <$> entries.
Proof.
  intros Hplain Htrim Hpad Hexec.
  unfold Historical.findHistoricalCommits,
    Historical.findHistoricalCommits_destructured.
  rewrite !bind_cons. cbn [mbind list_bind]. rewrite !app_nil_r.
  unfold Historical.commits_of_flag, Historical.commits_of_flag_destructured.
  rewrite Hexec.
  destruct (decide (entries = [])) as [->|Hne].
  { simpl. by rewrite (trim_blank pad Hpad). }
  assert (log_output entries ≠ []) as Hout.
  { destruct entries as [|e es]; [done|].
    inversion Hplain as [|? ? (_ & Hh & _) _]; subst.
    unfold log_output, record_line. simpl.
    destruct (hash e); [done|]. by destruct es. }
  assert (split [10] (log_output entries) = record_line <$> entries) as Hlines.
  { apply split_join; [by destruct entries|].
    apply Forall_fmap. eapply Forall_impl; [exact Hplain|].
    intros e He. by apply plain_entry_fields. }
  destruct (parse_plain_entries entries Hplain) as [H1 H2].
  rewrite (trim_padded _ pad Hout Htrim Hpad), Hlines, H1, H2.
  by destruct (log_output entries).
Qed.

Lemma log_round_trip_witness :
  Historical.findHistoricalCommits
    (λ _, Some (code_units "abc|feat(ui): x||Al|al@x" ++ LF
                ++ code_units "def|fix: y||Bo|bo@x" ++ LF))
    [code_units "FEATURE_X"]
  = [Historical.historical (code_units "abc") (code_units "feat(ui): x") [];
     Historical.historical (code_units "def") (code_units "fix: y") []].
Proof.
  refine (proj1 (log_round_trip
            (λ _, Some (code_units "abc|feat(ui): x||Al|al@x" ++ LF
                        ++ code_units "def|fix: y||Bo|bo@x" ++ LF))
            (code_units "FEATURE_X")
            [{| hash := code_units "abc"; subject := code_units "feat(ui): x";
                text := []; author_name := code_units "Al";
                author_email := code_units "al@x" |};
             {| hash := code_units "def"; subject := code_units "fix: y";
                text := []; author_name := code_units "Bo";
                author_email := code_units "bo@x" |}]
            LF _ _ _ _)).
  - repeat (constructor; [split; [|by split]; unfold fields; simpl;
      repeat (apply Forall_cons; split;
              [split; apply (bool_decide_unpack _); vm_compute; exact I|]);
      apply Forall_nil_2|]).
    constructor.
  - apply (trimmed_intro 97
             (code_units "bc|feat(ui): x||Al|al@x" ++ LF
              ++ code_units "def|fix: y||Bo|bo@") 120);
      reflexivity.
  - by repeat constructor.
  - reflexivity.
Defined.

(** ** Further properties of the rendering with history *)

(** The commits that the rendering with history hands on for one path
    begin with the commits of the path that [shouldIncludeCommit] keeps, in
    order.  What follows comes from [findHistoricalCommits] of the newly
    enabled flags: every such commit whose [sha] no kept commit has, whether
    or not [shouldIncludeCommit] would keep it; so every historical commit
    has its [sha] among the result.  With no newly enabled flag nothing is
    added. *)
Theorem history_is_appended insertion_order findHistoricalCommits this
    commits :
  let kept := List.filter (Backfill.shouldIncludeCommit this) commits in
  let new := Backfill.newlyEnabledFlags insertion_order this in
  let result :=
    Backfill.filteredCommits insertion_order findHistoricalCommits this
                             commits in
  kept `prefix_of` result ∧
  (new = [] → result = kept) ∧
  (∀ commit,
     commit ∈ result ↔
     commit ∈ kept ∨
     (new ≠ [] ∧ commit ∈ findHistoricalCommits new ∧
      sha commit ∉ sha <$> kept)) ∧
  (new ≠ [] →
   ∀ commit, commit ∈ findHistoricalCommits new →
             sha commit ∈ sha <$> result).
Proof.
  intros kept new result. unfold result, Backfill.filteredCommits.
  fold kept new. destruct new as [|flag flags] eqn:Hnew.
  - split; [done|]. split; [done|]. split; [|done].
    intros commit. split; [by left|]. by intros [?|[? _]].
  - split; [by eexists|]. split; [done|]. split.
    + intros commit. rewrite elem_of_app, elem_of_filter.
      rewrite negb_true_iff, bool_decide_eq_false. split.
      * intros [?|[? ?]]; [by left|]. by right.
      * intros [?|(_ & ? & ?)]; [by left|]. by right.
    + intros _ commit Hin. rewrite fmap_app, elem_of_app.
      destruct (decide (sha commit ∈ sha <$> kept)) as [|Hno]; [by left|].
      right. apply list_elem_of_fmap. exists commit. split; [done|].
      apply elem_of_filter. split; [done|].
      by rewrite negb_true_iff, bool_decide_eq_false.
Qed.

Lemma get_set_eq key value props :
  get_property key (set_property key value props) = value.
Proof.
  induction props as [|[k v] props IH]; simpl.
  - by rewrite bool_decide_eq_true_2.
  - destruct (bool_decide_reflect (k = key)) as [->|Hk]; simpl.
    + by rewrite bool_decide_eq_true_2.
    + by rewrite bool_decide_eq_false_2.
Qed.

Lemma get_set_ne key key' value props :
  key ≠ key' →
  get_property key' (set_property key value props) = get_property key' props.
Proof.
  intros Hne. induction props as [|[k v] props IH]; simpl.
  - by rewrite bool_decide_eq_false_2.
  - destruct (bool_decide_reflect (k = key)) as [->|Hk]; simpl.
    + by rewrite !bool_decide_eq_false_2.
    + by rewrite IH.
Qed.

Lemma get_property_in key props :
  get_property key props ≠ v_undefined → key ∈ props.*1.
Proof.
  induction props as [|[k v] props IH]; simpl; [done|].
  destruct (bool_decide_reflect (k = key)) as [->|Hk]; intros H.
  - by left.
  - right. by apply IH.
Qed.

Lemma get_property_absent key props :
  key ∉ props.*1 → get_property key props = v_undefined.
Proof.
  intros Hin. destruct (decide (get_property key props = v_undefined));
    [done|]. by destruct Hin; apply get_property_in.
Qed.

Section BackfillInjection.

Variable insertion_order : list jsstring.
Variable findHistoricalCommits : list jsstring → list Commit.
Variable inherited : option heap_object → jsstring → any.
Variable this : FeatureFlagPlugin.

Local Abbreviation collect :=
  (Backfill.collect_path insertion_order findHistoricalCommits this).
Local Abbreviation inject := (Backfill.inject inherited).

Lemma collect_path_get acc e path :
  e.1 ≠ path →
  get_property path (collect acc e).2 = get_property path acc.2.
Proof.
  intros Hne. unfold Backfill.collect_path.
  destruct e.2 as [| | | | | |commits]; try done.
  destruct (acc.1 !! commits) as [[elems named|props]|]; try done.
  simpl. by apply get_set_ne.
Qed.

Lemma foldl_collect_get props path : ∀ acc,
  path ∉ props.*1 →
  get_property path (foldl collect acc props).2 = get_property path acc.2.
Proof.
  induction props as [|e props IH]; intros acc Hp; cbn [foldl]; [done|].
  rewrite fmap_cons, not_elem_of_cons in Hp. destruct Hp as [Hne Hp].
  rewrite IH by done. by apply collect_path_get.
Qed.

Lemma foldl_collect_keys props path : ∀ acc,
  path ∈ (foldl collect acc props).2.*1 →
  path ∈ acc.2.*1 ∨ path ∈ props.*1.
Proof.
  induction props as [|e props IH]; intros acc Hp; cbn [foldl] in Hp;
    [by left|].
  apply IH in Hp as [Hp|Hp]; [|right; by right].
  revert Hp. unfold Backfill.collect_path.
  destruct e.2 as [| | | | | |commits]; try by left.
  destruct (acc.1 !! commits) as [[elems named|props']|]; try by left.
  simpl. rewrite elem_of_set_property. intros [->|Hp]; [|by left].
  right. by left.
Qed.

Lemma foldl_collect_dom props : ∀ acc, dom acc.1 ⊆ dom (foldl collect acc props).1.
Proof.
  induction props as [|e props IH]; intros acc; cbn [foldl]; [done|].
  etrans; [|apply IH]. intros r [o Ho]%elem_of_dom.
  apply elem_of_dom. exists o. by apply collect_path_old.
Qed.

(** What the first loop stores for a path: a new array with the filtered
    commits of the path and the historical ones. *)
Lemma foldl_collect_path props path commits elems named : ∀ acc,
  NoDup props.*1 →
  (path, v_object commits) ∈ props →
  acc.1 !! commits = Some (h_commits elems named) →
  ∃ array,
    get_property path (foldl collect acc props).2 = v_object array ∧
    (foldl collect acc props).1 !! array
    = Some (h_commits
              (Backfill.filteredCommits insertion_order findHistoricalCommits
                                        this elems) []) ∧
    array ∉ dom acc.1.
Proof.
  induction props as [|e props IH]; intros acc Hnd Hin Hc;
    [by apply elem_of_nil in Hin|].
  rewrite fmap_cons in Hnd. apply NoDup_cons in Hnd as [Hfirst Hnd].
  apply elem_of_cons in Hin as [<-|Hin]; cbn [foldl].
  - exists (fresh (dom acc.1)).
    assert (collect acc (path, v_object commits)
            = (<[fresh (dom acc.1) :=
                   h_commits (Backfill.filteredCommits insertion_order
                                findHistoricalCommits this elems) []]> acc.1,
               set_property path (v_object (fresh (dom acc.1))) acc.2))
      as ->.
    { unfold Backfill.collect_path. simpl. by rewrite Hc. }
    split; [|split].
    + rewrite foldl_collect_get by done. simpl. apply get_set_eq.
    + apply foldl_collect_old. simpl. by rewrite lookup_insert_eq.
    + apply is_fresh.
  - destruct (IH (collect acc e) Hnd Hin) as (array & Hg & Ha & Hd).
    { by apply collect_path_old. }
    exists array. split; [done|]. split; [done|].
    intros Hd'. apply Hd. revert Hd'. apply (foldl_collect_dom [e] acc).
Qed.

Lemma inject_dom f acc e : dom acc.1 ⊆ dom (inject f acc e).1.
Proof using Type.
  intros r [o Ho]%elem_of_dom.
  destruct (inject_heap inherited f acc e r o Ho) as (o' & Ho' & _).
  apply elem_of_dom. by eexists.
Qed.

Lemma strategy_of_one_path props path strategy :
  (∀ other value, (other, value) ∈ (path, v_object strategy) :: props →
                  value = v_object strategy → other = path) →
  path ∉ props.*1 →
  strategy ∉ referenced props.
Proof using Type.
  intros Hone Hfirst Hr. unfold referenced in Hr.
  apply list_elem_of_bind in Hr as ([other value] & Hv & Hin).
  simpl in Hv. destruct value as [| | | | | |r];
    try by apply elem_of_nil in Hv.
  apply list_elem_of_singleton in Hv as <-.
  assert (other = path) as ->.
  { apply (Hone other (v_object strategy)); [|done].
    apply elem_of_cons. by right. }
  apply Hfirst. apply list_elem_of_fmap.
  by exists (path, v_object strategy).
Qed.

(** What the second loop does to a plain strategy that one path only
    refers to, where the read of the path in [filteredCommitsByPath] finds
    [found] whatever the heap holds: [_commits] becomes [found] when that is
    truthy, and a new empty array otherwise. *)
Lemma foldl_inject_strategy f props path strategy found : ∀ acc fields,
  (path, v_object strategy) ∈ props →
  (∀ other value, (other, value) ∈ props → value = v_object strategy →
                  other = path) →
  NoDup props.*1 →
  (∀ h', Backfill.read inherited h' f path = found) →
  acc.1 !! strategy = Some (h_record fields) →
  ∃ fields',
    (foldl (inject f) acc props).1 !! strategy = Some (h_record fields') ∧
    other_properties fields' = other_properties fields ∧
    if Backfill.to_boolean found
    then get_property (code_units "_commits") fields' = found
    else ∃ empty named,
           get_property (code_units "_commits") fields' = v_object empty ∧
           (foldl (inject f) acc props).1 !! empty
           = Some (h_commits [] named) ∧
           (empty ∉ dom acc.1) ∧
           (empty ∉ referenced props → named = []).
Proof using insertion_order findHistoricalCommits inherited.
  induction props as [|e props IH]; intros acc fields Hin Hone Hnd Hf Hs;
    [by apply elem_of_nil in Hin|].
  rewrite fmap_cons in Hnd. apply NoDup_cons in Hnd as [Hfirst Hnd].
  cbn [foldl]. apply elem_of_cons in Hin as [<-|Hin].
  - pose proof (strategy_of_one_path props path strategy Hone Hfirst)
      as Hfree.
    pose proof (inject_strategy inherited f acc path strategy _ Hs) as Hheap.
    simpl in Hheap. rewrite Hf in Hheap.
    destruct (Backfill.to_boolean found) eqn:Hfound.
    + destruct (foldl_inject_heap inherited f props
                  (inject f acc (path, v_object strategy)) strategy
                  (Backfill.with_commits found (h_record fields)))
        as (o' & Ho' & _ & Heq).
      { rewrite Hheap. by rewrite lookup_insert_eq. }
      rewrite (Heq Hfree) in Ho'. eexists. split; [exact Ho'|].
      split; [apply other_properties_set | apply get_set_eq].
    + set (empty := fresh (dom acc.1)) in *.
      assert (empty ≠ strategy) as Hne.
      { intros Heq. apply (is_fresh (dom acc.1)). fold empty. rewrite Heq.
        apply elem_of_dom. by eexists. }
      destruct (foldl_inject_heap inherited f props
                  (inject f acc (path, v_object strategy)) strategy
                  (Backfill.with_commits (v_object empty) (h_record fields)))
        as (o' & Ho' & _ & Heq).
      { rewrite Hheap. by rewrite lookup_insert_eq. }
      rewrite (Heq Hfree) in Ho'.
      destruct (foldl_inject_heap inherited f props
                  (inject f acc (path, v_object strategy)) empty
                  (h_commits [] []))
        as (oe & Hoe & Hsame & Heqe).
      { rewrite Hheap. rewrite lookup_insert_ne by done.
        by rewrite lookup_insert_eq. }
      destruct (same_but_commits_array _ _ _ Hsame) as (named & -> & _).
      eexists. split; [exact Ho'|]. split; [apply other_properties_set|].
      exists empty, named. split; [apply get_set_eq|]. split; [done|].
      split; [apply is_fresh|].
      rewrite elem_of_referenced_cons. intros Hn.
      assert (h_commits [] named = h_commits [] []) as [= ->]
        by (apply Heqe; tauto).
      done.
  - destruct (inject_heap inherited f acc e strategy _ Hs)
      as (o1 & H1 & Hsame & _).
    destruct (same_but_commits_record _ _ Hsame) as (fields1 & -> & Hother).
    destruct (IH (inject f acc e) fields1 Hin) as (fields' & Hst & Ho & Hc);
      [|done|done|done|].
    { intros other value Hv. apply Hone. by right. }
    exists fields'. split; [done|]. split; [congruence|].
    destruct (Backfill.to_boolean found); [done|].
    destruct Hc as (empty & named & Hg & He & Hd & Hn).
    exists empty, named. split; [done|]. split; [done|]. split.
    + intros Hd'. apply Hd. revert Hd'. apply inject_dom.
    + rewrite elem_of_referenced_cons. intros Hr. apply Hn. tauto.
Qed.

(** The elements of an array stay through the second loop. *)
Lemma foldl_inject_array f props acc r elems named :
  acc.1 !! r = Some (h_commits elems named) →
  ∃ named', (foldl (inject f) acc props).1 !! r
            = Some (h_commits elems named') ∧
            (r ∉ referenced props → named' = named).
Proof using Type.
  intros Hr.
  destruct (foldl_inject_heap inherited f props acc r _ Hr)
    as (o' & Ho' & Hsame & Heq).
  destruct (same_but_commits_array _ _ _ Hsame) as (named' & -> & _).
  exists named'. split; [done|]. intros Hn.
  by assert (h_commits elems named' = h_commits elems named) as [= ->]
    by by apply Heq.
Qed.

End BackfillInjection.

(** The rendering with history stores its result in the strategy.  When
    a path has a commit array and a plain strategy of its own,
    [preconfigure] sets the strategy's [_commits] to a new array that holds
    the commits kept for the path followed by the historical ones; the
    other properties of the strategy stay as they were.  The array has no
    property of its own where every strategy referred to is an object of
    the heap. *)
Theorem commits_injected insertion_order findHistoricalCommits inherited
    this s c rl (h : heap) path strategy fields commits elems named :
  NoDup (entries h c).*1 →
  NoDup (entries h s).*1 →
  (path, v_object commits) ∈ entries h c →
  h !! commits = Some (h_commits elems named) →
  (path, v_object strategy) ∈ entries h s →
  (∀ other value, (other, value) ∈ entries h s →
                  value = v_object strategy → other = path) →
  h !! strategy = Some (h_record fields) →
  let res := Backfill.preconfigure insertion_order findHistoricalCommits
               inherited this s c rl h in
  ∃ fields' array named',
    res.1 !! strategy = Some (h_record fields') ∧
    get_property (code_units "_commits") fields' = v_object array ∧
    other_properties fields' = other_properties fields ∧
    res.1 !! array
    = Some (h_commits
              (Backfill.filteredCommits insertion_order findHistoricalCommits
                                        this elems) named') ∧
    (array ∉ dom h) ∧
    ((∀ r, r ∈ referenced (entries h s) → r ∈ dom h) → named' = []).
Proof.
  intros Hndc Hnds Hc Hcommits Hs Hone Hstrategy res.
  unfold res, Backfill.preconfigure.
  set (collected :=
         foldl (Backfill.collect_path insertion_order findHistoricalCommits
                                      this)
               (h, []) (entries h c)).
  destruct (foldl_collect_path insertion_order findHistoricalCommits this
              (entries h c) path commits elems named (h, []) Hndc Hc
              Hcommits)
    as (array & Hget & Harray & Hfresh).
  fold collected in Hget, Harray.
  assert (entries collected.1 s = entries h s) as ->
    by apply foldl_collect_entries.
  assert (∀ h', Backfill.read inherited h' collected.2 path = v_object array)
    as Hread.
  { intros h'. unfold Backfill.read. rewrite bool_decide_eq_true_2; [done|].
    apply get_property_in. by rewrite Hget. }
  destruct (foldl_inject_strategy insertion_order findHistoricalCommits
              inherited collected.2 (entries h s) path
              strategy (v_object array) (collected.1, []) fields Hs Hone Hnds
              Hread)
    as (fields' & H1 & H2 & H3).
  { by apply foldl_collect_old. }
  simpl in H3.
  destruct (foldl_inject_array inherited collected.2 (entries h s)
              (collected.1, []) array _ _ Harray) as (named' & H4 & H5).
  exists fields', array, named'.
  split; [by apply alloc_old|]. split; [done|]. split; [done|].
  split; [by apply alloc_old|]. split; [done|].
  intros Hwf. apply H5. intros Hin. by apply Hfresh, Hwf.
Qed.

Lemma commits_injected_witness :
  let h := one_strategy [commit_A; commit_C] in
  let res := Backfill.preconfigure [code_units "FEATURE_X"] (λ _, [commit_B])
               (λ _ _, v_undefined) (constructor env_x)
               1%positive 2%positive 3%positive h in
  ∃ fields' array named',
    res.1 !! 5%positive = Some (h_record fields') ∧
    get_property (code_units "_commits") fields' = v_object array ∧
    other_properties fields'
    = other_properties [(code_units "type", v_string (code_units "node"))] ∧
    res.1 !! array
    = Some (h_commits
              (Backfill.filteredCommits [code_units "FEATURE_X"]
                 (λ _, [commit_B]) (constructor env_x) [commit_A; commit_C])
              named') ∧
    (array ∉ dom h) ∧
    ((∀ r, r ∈ referenced (entries h 1%positive) → r ∈ dom h) → named' = []).
Proof.
  apply (commits_injected [code_units "FEATURE_X"] (λ _, [commit_B])
           (λ _ _, v_undefined) (constructor env_x)
           1%positive 2%positive 3%positive
           (one_strategy [commit_A; commit_C])
           (code_units ".") 5%positive
           [(code_units "type", v_string (code_units "node"))]
           4%positive [commit_A; commit_C] []).
  - apply (bool_decide_unpack _). vm_compute. exact I.
  - apply (bool_decide_unpack _). vm_compute. exact I.
  - apply list_elem_of_singleton. reflexivity.
  - reflexivity.
  - apply list_elem_of_singleton. reflexivity.
  - intros other value Hin _.
    apply list_elem_of_singleton in Hin. by injection Hin as -> _.
  - reflexivity.
Defined.

(** A path that has a plain strategy of its own but no entry in
    [commitsByPath], where no path of [commitsByPath] is [__proto__]: the
    read [filteredCommitsByPath[path]] goes to [Object.prototype].  Where
    that has a truthy value under the name of the path, as it has the
    function [Object] under [constructor], the strategy's [_commits]
    becomes that value; otherwise it becomes a new empty array. *)
Theorem no_commits_entry insertion_order findHistoricalCommits inherited
    this s c rl (h : heap) path strategy fields :
  NoDup (entries h s).*1 →
  path ∉ (entries h c).*1 →
  Backfill.proto_key ∉ (entries h c).*1 →
  (path, v_object strategy) ∈ entries h s →
  (∀ other value, (other, value) ∈ entries h s →
                  value = v_object strategy → other = path) →
  h !! strategy = Some (h_record fields) →
  let res := Backfill.preconfigure insertion_order findHistoricalCommits
               inherited this s c rl h in
  let found := inherited None path in
  ∃ fields',
    res.1 !! strategy = Some (h_record fields') ∧
    other_properties fields' = other_properties fields ∧
    if Backfill.to_boolean found
    then get_property (code_units "_commits") fields' = found
    else ∃ empty named,
           get_property (code_units "_commits") fields' = v_object empty ∧
           res.1 !! empty = Some (h_commits [] named) ∧
           (empty ∉ dom h) ∧
           ((∀ r, r ∈ referenced (entries h s) → r ∈ dom h) → named = []).
Proof.
  intros Hnds Hc Hproto Hs Hone Hstrategy res found.
  unfold res, Backfill.preconfigure.
  set (collected :=
         foldl (Backfill.collect_path insertion_order findHistoricalCommits
                                      this)
               (h, []) (entries h c)).
  assert (∀ key, key ∉ (entries h c).*1 → key ∉ collected.2.*1) as Hkeys.
  { intros key Hkey Hin. unfold collected in Hin.
    apply foldl_collect_keys in Hin as [Hin|Hin]; [|done].
    by apply elem_of_nil in Hin. }
  assert (∀ h', Backfill.read inherited h' collected.2 path = found) as Hread.
  { intros h'. unfold Backfill.read, Backfill.prototype.
    rewrite bool_decide_eq_false_2 by by apply Hkeys.
    by rewrite (get_property_absent Backfill.proto_key) by by apply Hkeys. }
  assert (entries collected.1 s = entries h s) as ->
    by apply foldl_collect_entries.
  destruct (foldl_inject_strategy insertion_order findHistoricalCommits
              inherited collected.2 (entries h s) path
              strategy found (collected.1, []) fields Hs Hone Hnds Hread)
    as (fields' & H1 & H2 & H3).
  { by apply foldl_collect_old. }
  exists fields'. split; [by apply alloc_old|]. split; [done|].
  destruct (Backfill.to_boolean found); [done|].
  destruct H3 as (empty & named & Hg & He & Hd & Hn).
  assert (empty ∉ dom h) as Hfresh.
  { intros Hin. apply Hd. revert Hin.
    apply (foldl_collect_dom insertion_order findHistoricalCommits this
             (entries h c) (h, [])). }
  exists empty, named. split; [done|]. split; [by apply alloc_old|].
  split; [done|]. intros Hwf. apply Hn. intros Hin. by apply Hfresh, Hwf.
Qed.

Lemma no_commits_entry_witness :
  let h := constructor_strategy in
  let inherited := λ (_ : option heap_object) (key : jsstring),
    if bool_decide (key = code_units "constructor")
    then v_function 9%positive else v_undefined in
  let res := Backfill.preconfigure [] (λ _, []) inherited (constructor ∅)
               1%positive 2%positive 3%positive h in
  ∃ fields',
    res.1 !! 5%positive = Some (h_record fields') ∧
    other_properties fields'
    = other_properties [(code_units "type", v_string (code_units "node"))] ∧
    get_property (code_units "_commits") fields' = v_function 9%positive.
Proof.
  intros h inherited res.
  destruct (no_commits_entry [] (λ _, []) inherited (constructor ∅)
              1%positive 2%positive 3%positive constructor_strategy
              (code_units "constructor") 5%positive
              [(code_units "type", v_string (code_units "node"))])
    as (fields' & H1 & H2 & H3).
  - apply (bool_decide_unpack _). vm_compute. exact I.
  - apply not_elem_of_nil.
  - apply not_elem_of_nil.
  - apply list_elem_of_singleton. reflexivity.
  - intros other value Hin _.
    apply list_elem_of_singleton in Hin. by injection Hin as -> _.
  - reflexivity.
  - exists fields'. split; [exact H1|]. split; [exact H2 | exact H3].
Defined.

(** ** A line of the log that is no record *)





(** ** The rendering with history when [git] gives nothing *)

Lemma destructured_nothing execSync flags :
  (∀ flag, flag ∈ flags →
           execSync (Historical.command flag) = None ∨
           ∃ output, execSync (Historical.command flag) = Some output ∧
                     Forall (λ x, is_space x = true) output) →
  Historical.findHistoricalCommits_destructured execSync flags = [].
Proof.
  unfold Historical.findHistoricalCommits_destructured.
  induction flags as [|flag flags IH]; intros Hall; [done|].
  rewrite bind_cons, IH, app_nil_r.
  - unfold Historical.commits_of_flag_destructured.
    destruct (Hall flag) as [->|(output & -> & Hblank)]; [by left | done |].
    by rewrite (trim_blank output Hblank).
  - intros f Hf. apply Hall. by right.
Qed.

(** When [execSync] throws or prints only white space for every newly
    enabled flag, the rendering with history hands on the commits that
    [shouldIncludeCommit] keeps and nothing else: without [git] it filters
    as the other renderings do. *)
Theorem history_unavailable insertion_order execSync this commits :
  (∀ flag, flag ∈ Backfill.newlyEnabledFlags insertion_order this →
           execSync (Historical.command flag) = None ∨
           ∃ output, execSync (Historical.command flag) = Some output ∧
                     Forall (λ x, is_space x = true) output) →
  Backfill.filteredCommits insertion_order
    (λ flags, Historical.to_commit
                <$> Historical.findHistoricalCommits_destructured execSync flags)
    this commits
  = List.filter (Src.shouldIncludeCommit this) commits.
Proof.
  intros Hall. unfold Backfill.filteredCommits.
  rewrite (destructured_nothing execSync _ Hall). simpl.
  change (Backfill.shouldIncludeCommit this)
    with (Src.shouldIncludeCommit this).
  destruct (Backfill.newlyEnabledFlags insertion_order this); [done|].
  by rewrite app_nil_r.
Qed.

Lemma history_unavailable_witness :
  Backfill.filteredCommits [code_units "FEATURE_X"]
    (λ flags, Historical.to_commit
                <$> Historical.findHistoricalCommits_destructured
                      (λ _, None) flags)
    (constructor env_x) [commit_A; commit_B; commit_C]
  = List.filter (Src.shouldIncludeCommit (constructor env_x))
                [commit_A; commit_B; commit_C].
Proof.
  apply (history_unavailable [code_units "FEATURE_X"] (λ _, None)
           (constructor env_x) [commit_A; commit_B; commit_C]).
  intros flag _. by left.
Defined.
